(** * JAXtronomy lens profiles: Gaussian and SIS

    A shallow embedding of [jaxtronomy/LensModel/Profiles/gaussian.py] and
    [jaxtronomy/LensModel/Profiles/sis.py].

    Numbers.  A JAX/Python float is modelled by [xreal]: an exact real
    number, or one of the IEEE special values [PInf], [NInf], [NaN].  The
    arithmetic on finite values is exact real arithmetic (rounding and
    overflow are not modelled, and there is a single zero); the special values
    arise and propagate as in IEEE 754 ([0/0 = NaN], [x/0 = +-inf],
    [inf * 0 = NaN], [sqrt] of a negative number is [NaN], every comparison
    with [NaN] is false).  Where a statement is about binary64 rounding
    itself, the Python code is also run on Rocq's primitive binary64 floats
    ([PrimFloat]), which round like CPython floats.

    Python exceptions are modelled by the result type [pyres]; JAX arrays by
    a record with a shape, a dtype, a weak-type flag and the flat data. *)

From Stdlib Require Import Reals Lra Lia List String Bool.
From Stdlib Require Floats.
Import ListNotations.
Local Open Scope string_scope.

Local Open Scope R_scope.

(* ------------------------------------------------------------------------- *)
(** ** Extended reals with IEEE special values *)

Inductive xreal : Type :=
| Fin (r : R)
| PInf
| NInf
| NaN.

Definition xopp (x : xreal) : xreal :=
  match x with
  | Fin a => Fin (- a)
  | PInf => NInf
  | NInf => PInf
  | NaN => NaN
  end.

Definition xadd (x y : xreal) : xreal :=
  match x, y with
  | Fin a, Fin b => Fin (a + b)
  | NaN, _ | _, NaN => NaN
  | PInf, NInf | NInf, PInf => NaN
  | PInf, _ | _, PInf => PInf
  | NInf, _ | _, NInf => NInf
  end.

Definition xsub (x y : xreal) : xreal := xadd x (xopp y).

(** [inf * a]: [NaN] for [a = 0], otherwise an infinity with the product's
    sign. *)
Definition xscale_inf (a : R) (i : xreal) : xreal :=
  if Req_EM_T a 0 then NaN else if Rlt_dec 0 a then i else xopp i.

Definition xmul (x y : xreal) : xreal :=
  match x, y with
  | Fin a, Fin b => Fin (a * b)
  | NaN, _ | _, NaN => NaN
  | Fin a, i | i, Fin a => xscale_inf a i
  | PInf, PInf | NInf, NInf => PInf
  | _, _ => NInf
  end.

Definition xdiv (x y : xreal) : xreal :=
  match x, y with
  | Fin a, Fin b =>
      if Req_EM_T b 0 then
        (if Req_EM_T a 0 then NaN else if Rlt_dec 0 a then PInf else NInf)
      else Fin (a / b)
  | NaN, _ | _, NaN => NaN
  | Fin _, _ => Fin 0
  | i, Fin b =>
      if Req_EM_T b 0 then i else if Rlt_dec 0 b then i else xopp i
  | _, _ => NaN
  end.

Definition xsqrt (x : xreal) : xreal :=
  match x with
  | Fin a => if Rlt_dec a 0 then NaN else Fin (sqrt a)
  | PInf => PInf
  | NInf => NaN
  | NaN => NaN
  end.

Definition xexp (x : xreal) : xreal :=
  match x with
  | Fin a => Fin (exp a)
  | PInf => PInf
  | NInf => Fin 0
  | NaN => NaN
  end.

(** Comparisons, as Python's [==], [<=], [<] on floats: false on [NaN]. *)
Definition xeqb (x y : xreal) : bool :=
  match x, y with
  | Fin a, Fin b => if Req_EM_T a b then true else false
  | PInf, PInf | NInf, NInf => true
  | _, _ => false
  end.

Definition xleb (x y : xreal) : bool :=
  match x, y with
  | Fin a, Fin b => if Rle_dec a b then true else false
  | NaN, _ | _, NaN => false
  | NInf, _ | _, PInf => true
  | _, _ => false
  end.

Definition xltb (x y : xreal) : bool :=
  match x, y with
  | Fin a, Fin b => if Rlt_dec a b then true else false
  | NaN, _ | _, NaN => false
  | NInf, NInf | PInf, PInf => false
  | NInf, _ | _, PInf => true
  | _, _ => false
  end.

Definition is_finite (x : xreal) : bool :=
  match x with Fin _ => true | _ => false end.

(** Booleans stored in an array: [True] is [1], [False] is [0]. *)
Definition xbool (b : bool) : xreal := if b then Fin 1 else Fin 0.

Definition xtruthy (x : xreal) : bool :=
  match x with
  | Fin a => if Req_EM_T a 0 then false else true
  | _ => true
  end.

Declare Scope xr_scope.
Delimit Scope xr_scope with xr.
Infix "+" := xadd : xr_scope.
Infix "-" := xsub : xr_scope.
Infix "*" := xmul : xr_scope.
Infix "/" := xdiv : xr_scope.
Notation "- x" := (xopp x) : xr_scope.

(* ------------------------------------------------------------------------- *)
(** ** Python results *)

Inductive exn : Type :=
| NameError (name : string)
| TypeError (msg : string).

Inductive pyres (A : Type) : Type :=
| Ok (a : A)
| Raise (e : exn).
Arguments Ok {A} a.
Arguments Raise {A} e.

Definition pybind {A B : Type} (m : pyres A) (k : A -> pyres B) : pyres B :=
  match m with
  | Ok a => k a
  | Raise e => Raise e
  end.

Notation "'let*' x ':=' m 'in' k" := (pybind m (fun x => k))
  (at level 200, x name, m at level 100, k at level 200).

(* ------------------------------------------------------------------------- *)
(** ** JAX arrays (with [jax_enable_x64] set, as [gaussian.py] does) *)

Inductive dtype : Type := DBool | DInt64 | DFloat32 | DFloat64.

Definition dtype_eq_dec (d1 d2 : dtype) : {d1 = d2} + {d1 <> d2}.
Proof. decide equality. Defined.

(** Kind ([bool] < [int] < [float]) and position in JAX's promotion lattice,
    restricted to these four dtypes: the join of two dtypes is the larger one
    ([int64] and [float32] give [float32]). *)
Definition kind (d : dtype) : nat :=
  match d with DBool => 0 | DInt64 => 1 | DFloat32 | DFloat64 => 2 end.

Definition rank (d : dtype) : nat :=
  match d with DBool => 0 | DInt64 => 1 | DFloat32 => 2 | DFloat64 => 3 end.

Definition dmax (d1 d2 : dtype) : dtype :=
  if Nat.leb (rank d1) (rank d2) then d2 else d1.

(** A weakly typed operand (a Python scalar) adopts the dtype of the
    strongly typed one when its kind fits, and its default dtype otherwise. *)
Definition weak_join (strong w : dtype) : dtype :=
  if Nat.leb (kind w) (kind strong) then strong else w.

Definition promote (d1 : dtype) (w1 : bool) (d2 : dtype) (w2 : bool)
  : dtype * bool :=
  match w1, w2 with
  | false, false => (dmax d1 d2, false)
  | true, true => (dmax d1 d2, true)
  | false, true => (weak_join d1 d2, false)
  | true, false => (weak_join d2 d1, false)
  end.

(** [true_divide] and [exp] turn integer and boolean inputs into the default
    float dtype. *)
Definition keep_dtype (d : dtype) : dtype := d.

Definition to_float (d : dtype) : dtype :=
  match d with DBool | DInt64 => DFloat64 | _ => d end.

Record array : Type := mk_array {
  shape : list nat;
  dtype_of : dtype;
  weak : bool;
  data : list xreal
}.

Definition size (s : list nat) : nat := fold_right Nat.mul 1%nat s.

Definition wf (a : array) : Prop := List.length (data a) = size (shape a).

(** Broadcasting, as far as the kernel needs it: a 0-d operand is repeated
    over the other operand's shape; otherwise both operands have the same
    shape (every array the kernel combines has the shape of [r]). *)
Definition bshape (s1 s2 : list nat) : list nat :=
  match s1 with [] => s2 | _ => s1 end.

Definition bcast (n : nat) (a : array) : list xreal :=
  match shape a with
  | [] => repeat (hd NaN (data a)) n
  | _ => data a
  end.

Fixpoint zipw {A B C : Type} (f : A -> B -> C) (l1 : list A) (l2 : list B)
  : list C :=
  match l1, l2 with
  | x :: l1', y :: l2' => f x y :: zipw f l1' l2'
  | _, _ => []
  end.

Fixpoint zipw3 {A B C D : Type} (f : A -> B -> C -> D)
  (l1 : list A) (l2 : list B) (l3 : list C) : list D :=
  match l1, l2, l3 with
  | x :: l1', y :: l2', z :: l3' => f x y z :: zipw3 f l1' l2' l3'
  | _, _, _ => []
  end.

Definition unary (dt : dtype -> dtype) (f : xreal -> xreal) (a : array)
  : array :=
  mk_array (shape a) (dt (dtype_of a)) (weak a) (map f (data a)).

Definition binary (dt : dtype -> dtype) (f : xreal -> xreal -> xreal)
  (a b : array) : array :=
  let s := bshape (shape a) (shape b) in
  let p := promote (dtype_of a) (weak a) (dtype_of b) (weak b) in
  mk_array s (dt (fst p)) (snd p)
    (zipw f (bcast (size s) a) (bcast (size s) b)).

Definition compare (f : xreal -> xreal -> bool) (a b : array) : array :=
  let s := bshape (shape a) (shape b) in
  mk_array s DBool false
    (zipw (fun x y => xbool (f x y)) (bcast (size s) a) (bcast (size s) b)).

(** [jnp.where(cond, x, y)] *)
Definition where_ (cond a b : array) : array :=
  let s := bshape (shape cond) (bshape (shape a) (shape b)) in
  let p := promote (dtype_of a) (weak a) (dtype_of b) (weak b) in
  mk_array s (fst p) (snd p)
    (zipw3 (fun t x y => if xtruthy t then x else y)
       (bcast (size s) cond) (bcast (size s) a) (bcast (size s) b)).

(** The [jax.numpy] functions behind the Python operators. *)
Module jnp.
Definition add := binary keep_dtype xadd.
Definition subtract := binary keep_dtype xsub.
Definition multiply := binary keep_dtype xmul.
Definition true_divide := binary to_float xdiv.
Definition negative := unary keep_dtype xopp.
Definition equal := compare xeqb.
Definition less_equal := compare xleb.
Definition less := compare xltb.
(** [x ** 2] is [lax.integer_pow(x, 2)], that is [x * x]. *)
Definition square := unary keep_dtype (fun x => xmul x x).
Definition exp := unary to_float xexp.
Definition sqrt := unary to_float xsqrt.
End jnp.

(** Python literals are weakly typed 0-d values. *)
Definition pyint (z : Z) : array := mk_array [] DInt64 true [Fin (IZR z)].
Definition pyfloat (x : R) : array := mk_array [] DFloat64 true [Fin x].

(** The index of [lax.fori_loop]: a 0-d integer. *)
Definition idx (i : nat) : array := mk_array [] DInt64 false [Fin (INR i)].

(** [jnp.zeros_like(r, dtype=float)]: [float] is [float64] under x64. *)
Definition zeros_like_float (r : array) : array :=
  mk_array (shape r) DFloat64 false (repeat (Fin 0) (size (shape r))).

(** [lax.fori_loop(lower, upper, body, init)]: the body's output must have
    the carry's shape, dtype and weak type, otherwise a [TypeError]. *)
Definition same_aval (a b : array) : bool :=
  (if list_eq_dec Nat.eq_dec (shape a) (shape b) then true else false)
  && (if dtype_eq_dec (dtype_of a) (dtype_of b) then true else false)
  && Bool.eqb (weak a) (weak b).

Fixpoint fori_go (k i : nat) (body : nat -> array -> array) (v : array)
  : pyres array :=
  match k with
  | O => Ok v
  | S k' =>
      let v' := body i v in
      if same_aval v' v then fori_go k' (S i) body v'
      else Raise (TypeError "body_fun output and input must have identical types")
  end.

Definition fori_loop (lower upper : nat) (body : nat -> array -> array)
  (init : array) : pyres array :=
  fori_go (upper - lower) lower body init.

(* ------------------------------------------------------------------------- *)
(** ** [gaussian.py] *)

Module Gaussian.

(** [Gaussian._num_integral(r, c)]: the trapezoidal sum of
    [(1 - e^{-c x^2}) / x] over [0, r] with 200 steps. *)
Definition trapezoidal_sum (r c : array) (i : nat) (val : array) : array :=
  let sum := val in
  let dx := jnp.true_divide r (pyfloat 200) in
  let x_left := jnp.multiply dx (idx i) in
  let x_right := jnp.multiply dx (jnp.add (idx i) (pyint 1)) in
  let y_left :=
    where_ (jnp.equal x_left (pyint 0)) (pyint 0)
      (jnp.true_divide
         (jnp.subtract (pyint 1)
            (jnp.exp (jnp.multiply (jnp.negative c) (jnp.square x_left))))
         x_left) in
  let y_right :=
    jnp.true_divide
      (jnp.subtract (pyint 1)
         (jnp.exp (jnp.multiply (jnp.negative c) (jnp.square x_right))))
      x_right in
  let sum :=
    jnp.add sum
      (jnp.multiply (jnp.true_divide (jnp.add y_left y_right) (pyint 2)) dx) in
  sum.

Definition _num_integral (r c : array) : pyres array :=
  let sum := zeros_like_float r in
  fori_loop 0 200 (trapezoidal_sum r c) sum.

Local Open Scope xr_scope.

(** The remaining methods take and return scalars. *)

(** [self.ds = 0.00001] *)
Definition ds : xreal := Fin (1 / 100000).

(** [jnp.pi] *)
Definition pi : xreal := Fin PI.

Definition _amp3d_to_2d (amp sigma_x sigma_y : xreal) : xreal :=
  amp * xsqrt pi * xsqrt (sigma_x * sigma_y * Fin 2).

Definition _amp2d_to_3d (amp sigma_x sigma_y : xreal) : xreal :=
  amp / (xsqrt pi * xsqrt (sigma_x * sigma_y * Fin 2)).

Definition mass_2d (R amp sigma : xreal) : xreal :=
  let sigma_x := sigma in
  let sigma_y := sigma in
  let amp2d := amp / (xsqrt pi * xsqrt (sigma_x * sigma_y * Fin 2)) in
  let c := Fin 1 / (Fin 2 * sigma_x * sigma_y) in
  amp2d * Fin 2 * pi * Fin 1 / (Fin 2 * c) * (Fin 1 - xexp ((- c) * (R * R))).

Definition alpha_abs (R amp sigma : xreal) : xreal :=
  let sigma_x := sigma in
  let sigma_y := sigma in
  let amp_density := _amp2d_to_3d amp sigma_x sigma_y in
  let alpha := mass_2d R amp_density sigma / pi / R in
  alpha.

Definition d_alpha_dr (R amp sigma_x sigma_y : xreal) : xreal :=
  let c := Fin 1 / (Fin 2 * sigma_x * sigma_y) in
  let A := _amp2d_to_3d amp sigma_x sigma_y
           * xsqrt (Fin 2 / pi * sigma_x * sigma_y) in
  Fin 1 / (R * R)
  * (Fin (-1) + (Fin 1 + Fin 2 * c * (R * R)) * xexp ((- c) * (R * R))) * A.

(** [jnp.where(R <= self.ds, self.ds, R)] on a scalar. *)
Definition derivatives (x y amp sigma center_x center_y : xreal)
  : xreal * xreal :=
  let x_ := x - center_x in
  let y_ := y - center_y in
  let R := xsqrt (x_ * x_ + y_ * y_) in
  let R := if xleb R ds then ds else R in
  let alpha := alpha_abs R amp sigma in
  (alpha / R * x_, alpha / R * y_).

(** [jnp.where(r < self.ds, self.ds, r)] on a scalar. *)
Definition hessian (x y amp sigma center_x center_y : xreal)
  : xreal * xreal * xreal * xreal :=
  let x_ := x - center_x in
  let y_ := y - center_y in
  let r := xsqrt (x_ * x_ + y_ * y_) in
  let sigma_x := sigma in
  let sigma_y := sigma in
  let r := if xltb r ds then ds else r in
  let d_alpha_dr := - d_alpha_dr r amp sigma_x sigma_y in
  let alpha := alpha_abs r amp sigma in
  let f_xx := - (d_alpha_dr / r + alpha / (r * r)) * (x_ * x_) / r + alpha / r in
  let f_yy := - (d_alpha_dr / r + alpha / (r * r)) * (y_ * y_) / r + alpha / r in
  let f_xy := - (d_alpha_dr / r + alpha / (r * r)) * x_ * y_ / r in
  (f_xx, f_xy, f_xy, f_yy).

(** A Python float passed to a jitted method: a weakly typed 0-d [float64]
    array. *)
Definition traced (x : xreal) : array := mk_array [] DFloat64 true [x].

(** [Gaussian.function]: the potential.  The scalar arithmetic on traced
    0-d values is done on their elements; [r] and [c] are weakly typed 0-d
    [float64] arrays, as the operations on traced Python floats give. *)
Definition function (x y amp sigma center_x center_y : xreal) : pyres array :=
  let x_ := x - center_x in
  let y_ := y - center_y in
  let r := xsqrt (x_ * x_ + y_ * y_) in
  let sigma_x := sigma in
  let sigma_y := sigma in
  let c := Fin 1 / (Fin 2 * sigma_x * sigma_y) in
  let* num_int := _num_integral (traced r) (traced c) in
  let amp_density := _amp2d_to_3d amp sigma_x sigma_y in
  let amp2d := amp_density / (xsqrt pi * xsqrt (sigma_x * sigma_y * Fin 2)) in
  let amp2d := amp2d * (Fin 2 * Fin 1 / (Fin 2 * c)) in
  Ok (jnp.multiply num_int (traced amp2d)).

Definition mass_2d_lens (R amp sigma : xreal) : xreal :=
  let sigma_x := sigma in
  let sigma_y := sigma in
  let amp_density := _amp2d_to_3d amp sigma_x sigma_y in
  mass_2d R amp_density sigma.

End Gaussian.

(* ------------------------------------------------------------------------- *)
(** ** Numbers seen by JAX's tracers

    [sis.py] differentiates its potential with [jax.grad], [jax.jacfwd] and
    [jax.jacrev]; the potential is therefore written once over an arbitrary
    number structure and run both on plain numbers and on tangent pairs.
    The tangent rules are those of JAX's primitives; derivatives are taken
    in forward mode with unit and zero tangents, which gives the values of
    JAX's reverse mode on the straight-line code of [SIS.function]. *)

Record num_ops (T : Type) : Type := {
  n_add : T -> T -> T;
  n_sub : T -> T -> T;
  n_mul : T -> T -> T;
  n_div : T -> T -> T;
  n_sqrt : T -> T;
  n_lit : xreal -> T
}.
Arguments n_add {T} _ _ _.
Arguments n_sub {T} _ _ _.
Arguments n_mul {T} _ _ _.
Arguments n_div {T} _ _ _.
Arguments n_sqrt {T} _ _.
Arguments n_lit {T} _ _.

Definition xr_ops : num_ops xreal :=
  {| n_add := xadd; n_sub := xsub; n_mul := xmul; n_div := xdiv;
     n_sqrt := xsqrt; n_lit := fun x => x |}.

(** Primal value and tangent.  [mul]: [g_x * y + x * g_y]; [div]:
    [g_x / y + (- g_y * x) * (1 / (y * y))]; [sqrt]: [g * (0.5 / ans)]. *)
Definition dual_ops {T : Type} (o : num_ops T) : num_ops (T * T) :=
  {| n_add := fun a b => (n_add o (fst a) (fst b), n_add o (snd a) (snd b));
     n_sub := fun a b => (n_sub o (fst a) (fst b), n_sub o (snd a) (snd b));
     n_mul := fun a b =>
       (n_mul o (fst a) (fst b),
        n_add o (n_mul o (snd a) (fst b)) (n_mul o (fst a) (snd b)));
     n_div := fun a b =>
       (n_div o (fst a) (fst b),
        n_add o (n_div o (snd a) (fst b))
          (n_mul o (n_mul o (n_sub o (n_lit o (Fin 0)) (snd b)) (fst a))
             (n_div o (n_lit o (Fin 1)) (n_mul o (fst b) (fst b)))));
     n_sqrt := fun a =>
       let ans := n_sqrt o (fst a) in
       (ans, n_mul o (snd a) (n_div o (n_lit o (Fin (1 / 2))) ans));
     n_lit := fun x => (n_lit o x, n_lit o (Fin 0)) |}.

(* ------------------------------------------------------------------------- *)
(** ** [sis.py] *)

Module SIS.

(** A module namespace: the names bound in it. *)
Definition namespace := list string.

(** The globals of [sis.py]: [from jax import grad, numpy as np] binds
    [grad] and [np]; [jnp], [jacfwd] and [jacrev] are not bound. *)
Definition module_globals : namespace :=
  ["__author__"; "grad"; "np"; "LensProfileBase"; "__all__"; "SIS"].

(** Python's builtins contain no [jnp], [jacfwd] or [jacrev]; the few listed
    here stand for them. *)
Definition builtins : namespace := ["abs"; "len"; "print"; "range"; "super"].

Definition bound (env : namespace) (name : string) : bool :=
  existsb (String.eqb name) (env ++ builtins).

Definition function {T : Type} (o : num_ops T) (env : namespace)
  (x y theta_E center_x center_y : T) : pyres T :=
  let x_shift := n_sub o x center_x in
  let y_shift := n_sub o y center_y in
  if bound env "jnp" then
    let f_ := n_mul o theta_E
                (n_sqrt o (n_add o (n_mul o x_shift x_shift)
                                   (n_mul o y_shift y_shift))) in
    Ok f_
  else Raise (NameError "jnp").

(** [grad(f, argnums=(0, 1))(x, y, theta_E, center_x, center_y)] *)
Definition grad_01
  (f : forall T, num_ops T -> T -> T -> T -> T -> T -> pyres T)
  (x y theta_E center_x center_y : xreal) : pyres (xreal * xreal) :=
  let o := dual_ops xr_ops in
  let z := Fin 0 in
  let* vx := f _ o (x, Fin 1) (y, z) (theta_E, z) (center_x, z) (center_y, z) in
  let* vy := f _ o (x, z) (y, Fin 1) (theta_E, z) (center_x, z) (center_y, z) in
  Ok (snd vx, snd vy).

(** [jacfwd(jacrev(f, argnums=(0, 1)), argnums=(0, 1))(...)]: entry [i][j]
    is the derivative along argument [j] of the derivative along [i]. *)
Definition jacfwd_jacrev_01
  (f : forall T, num_ops T -> T -> T -> T -> T -> T -> pyres T)
  (x y theta_E center_x center_y : xreal)
  : pyres ((xreal * xreal) * (xreal * xreal)) :=
  let o := dual_ops (dual_ops xr_ops) in
  let z := Fin 0 in
  let seed (v : xreal) (di dj : bool) :=
    ((v, if di then Fin 1 else z), (if dj then Fin 1 else z, z)) in
  let konst (v : xreal) := ((v, z), (z, z)) in
  let entry (ix jx : bool) :=
    pybind (f _ o (seed x ix jx) (seed y (negb ix) (negb jx))
              (konst theta_E) (konst center_x) (konst center_y))
      (fun v => Ok (snd (snd v))) in
  let* h_xx := entry true true in
  let* h_xy := entry true false in
  let* h_yx := entry false true in
  let* h_yy := entry false false in
  Ok ((h_xx, h_xy), (h_yx, h_yy)).

Definition derivatives (env : namespace) (x y theta_E center_x center_y : xreal)
  : pyres (xreal * xreal) :=
  if bound env "grad" then
    let* fxy := grad_01 (fun T o => @function T o env)
                  x y theta_E center_x center_y in
    let (f_x, f_y) := fxy in
    Ok (f_x, f_y)
  else Raise (NameError "grad").

Definition hessian (env : namespace) (x y theta_E center_x center_y : xreal)
  : pyres (xreal * xreal * xreal * xreal) :=
  if negb (bound env "jacfwd") then Raise (NameError "jacfwd")
  else if negb (bound env "jacrev") then Raise (NameError "jacrev")
  else
    let* h := jacfwd_jacrev_01 (fun T o => @function T o env)
                x y theta_E center_x center_y in
    let (f_x, f_y) := h in
    let f_xx := fst f_x in
    let f_xy := snd f_x in
    let f_yx := fst f_y in
    let f_yy := snd f_y in
    Ok (f_xx, f_xy, f_xy, f_yy).

Local Open Scope xr_scope.

(** [np.pi] *)
Definition pi : xreal := Fin PI.

Definition rho2theta (rho0 : xreal) : xreal :=
  let theta_E := pi * Fin 2 * rho0 in
  theta_E.

Definition theta2rho (theta_E : xreal) : xreal :=
  let fac1 := pi * Fin 2 in
  let rho0 := theta_E / fac1 in
  rho0.

Definition mass_3d (r rho0 : xreal) : xreal :=
  let mass_3d := Fin 4 * pi * rho0 * r in
  mass_3d.

Definition mass_3d_lens (r theta_E : xreal) : xreal :=
  let rho0 := theta2rho theta_E in
  mass_3d r rho0.

(** [np.pi**2] is [np.pi * np.pi] on Python floats. *)
Definition mass_2d (r rho0 : xreal) : xreal :=
  let alpha := Fin 2 * rho0 * (pi * pi) in
  let mass_2d := alpha * r in
  mass_2d.

Definition mass_2d_lens (r theta_E : xreal) : xreal :=
  let rho0 := theta2rho theta_E in
  mass_2d r rho0.

Definition grav_pot (x y rho0 center_x center_y : xreal) : xreal :=
  let x_ := x - center_x in
  let y_ := y - center_y in
  let r := xsqrt (x_ * x_ + y_ * y_) in
  let mass_3d := mass_3d r rho0 in
  let pot := mass_3d / r in
  pot.

Definition density (r rho0 : xreal) : xreal :=
  let rho := rho0 / (r * r) in
  rho.


Definition density_2d (x y rho0 center_x center_y : xreal) : xreal :=
  let x_ := x - center_x in
  let y_ := y - center_y in
  let r := xsqrt (x_ * x_ + y_ * y_) in
  let sigma := pi * rho0 / r in
  sigma.

(** The same two conversions on binary64 floats, for Python floats. *)
Module Binary64.
Import PrimFloat.
Local Open Scope float_scope.
Definition np_pi : PrimFloat.float := 0x1.921fb54442d18p+1.

Definition rho2theta (rho0 : PrimFloat.float) : PrimFloat.float :=
  PrimFloat.mul (PrimFloat.mul np_pi 2) rho0.

Definition theta2rho (theta_E : PrimFloat.float) : PrimFloat.float :=
  let fac1 := PrimFloat.mul np_pi 2 in
  PrimFloat.div theta_E fac1.
End Binary64.

End SIS.

(* ------------------------------------------------------------------------- *)
(** ** The composite trapezoidal rule, as the specification states it

    Not a translation of the source: the reference [_num_integral] is
    compared with.  [N = 200] subintervals of [0, r]; subinterval [i] has
    edges [i r / N] and [(i+1) r / N]; [f(x) = (1 - exp(-c x^2)) / x] with
    the value at [x = 0] replaced by its limit [0]; the contributions are
    folded from left to right into an accumulator starting at [0]. *)
Module TrapezoidSpec.

Definition f (c x : R) : R :=
  if Req_EM_T x 0 then 0 else (1 - exp (- c * x ^ 2)) / x.

Definition term (r c : R) (i : nat) : R :=
  (f c (INR i * r / 200) + f c (INR (i + 1) * r / 200)) / 2 * (r / 200).

Definition trapezoid (r c : R) : R :=
  fold_left (fun acc i => acc + term r c i) (seq 0 200) 0.

End TrapezoidSpec.

(** [a <= b] on two 0-d results, as Python evaluates it ([False] when
    either side is [NaN]). *)
Definition le_0d (a b : pyres array) : bool :=
  match a, b with
  | Ok a', Ok b' => xleb (hd NaN (data a')) (hd NaN (data b'))
  | _, _ => false
  end.

(** The real value of a finite [xreal] ([0] for the special values). *)
Definition xval (x : xreal) : R := match x with Fin a => a | _ => 0 end.

(* ------------------------------------------------------------------------- *)
(** ** Views of arrays and of the kernel, element by element *)

(** [a] has shape [s] and holds [g e] for each element [e] of [l]. *)
Definition PW (s : list nat) (l : list xreal) (g : xreal -> xreal) (a : array)
  : Prop :=
  shape a = s /\ data a = map g l.

(** [a] is a 0-d array holding [x]. *)
Definition S0 (x : xreal) (a : array) : Prop := shape a = [] /\ data a = [x].

(** One [trapezoidal_sum] step on one element [e] of [r], with running sum
    [s] and [c] holding [cv]. *)
Definition step_elem (cv : xreal) (i : nat) (e s : xreal) : xreal :=
  let dx := xdiv e (Fin 200) in
  let x_left := xmul dx (Fin (INR i)) in
  let x_right := xmul dx (xadd (Fin (INR i)) (Fin 1)) in
  let y_left :=
    if xtruthy (xbool (xeqb x_left (Fin 0))) then Fin 0
    else xdiv (xsub (Fin 1) (xexp (xmul (xopp cv) (xmul x_left x_left))))
           x_left in
  let y_right :=
    xdiv (xsub (Fin 1) (xexp (xmul (xopp cv) (xmul x_right x_right)))) x_right in
  xadd s (xmul (xdiv (xadd y_left y_right) (Fin 2)) dx).

(** [k] steps from index [i]. *)
Fixpoint elem_go (cv : xreal) (k i : nat) (e s : xreal) : xreal :=
  match k with
  | O => s
  | S k' => elem_go cv k' (S i) e (step_elem cv i e s)
  end.

(** A 0-d [float64] array, as [jnp.sqrt(x_**2 + y_**2)] of scalars. *)
Definition scalar_f64 (x : xreal) : array := mk_array [] DFloat64 false [x].

(* ========================================================================= *)
(** * Properties *)

(* ------------------------------------------------------------------------- *)
(** ** Arithmetic on finite values *)

Section XrealFacts.

Lemma xadd_fin (a b : R) : xadd (Fin a) (Fin b) = Fin (a + b).
Proof. reflexivity. Qed.

Lemma xsub_fin (a b : R) : xsub (Fin a) (Fin b) = Fin (a + - b).
Proof. reflexivity. Qed.

Lemma xmul_fin (a b : R) : xmul (Fin a) (Fin b) = Fin (a * b).
Proof. reflexivity. Qed.

Lemma xopp_fin (a : R) : xopp (Fin a) = Fin (- a).
Proof. reflexivity. Qed.

Lemma xexp_fin (a : R) : xexp (Fin a) = Fin (exp a).
Proof. reflexivity. Qed.

Lemma xdiv_fin (a b : R) : b <> 0 -> xdiv (Fin a) (Fin b) = Fin (a / b).
Proof. intros Hb. simpl. destruct (Req_EM_T b 0); [contradiction | reflexivity]. Qed.

Lemma xdiv_zero_zero (a b : R) : a = 0 -> b = 0 -> xdiv (Fin a) (Fin b) = NaN.
Proof.
  intros -> ->. simpl. destruct (Req_EM_T 0 0); [reflexivity | congruence].
Qed.

Lemma xsqrt_fin (a : R) : 0 <= a -> xsqrt (Fin a) = Fin (sqrt a).
Proof. intros Ha. simpl. destruct (Rlt_dec a 0); [lra | reflexivity]. Qed.

Lemma xeqb_fin (a b : R) : xeqb (Fin a) (Fin b) = true <-> a = b.
Proof. simpl. destruct (Req_EM_T a b); split; congruence. Qed.

Lemma xadd_nan_r (x : xreal) : xadd x NaN = NaN.
Proof. destruct x; reflexivity. Qed.

Lemma xadd_nan_l (x : xreal) : xadd NaN x = NaN.
Proof. reflexivity. Qed.

Lemma xmul_nan_l (x : xreal) : xmul NaN x = NaN.
Proof. reflexivity. Qed.

Lemma xdiv_nan_l (x : xreal) : xdiv NaN x = NaN.
Proof. reflexivity. Qed.

End XrealFacts.

Create Rewrite HintDb xfin.
#[export] Hint Rewrite xadd_fin xsub_fin xmul_fin xopp_fin xexp_fin : xfin.

(* ------------------------------------------------------------------------- *)
(** ** The array operations act elementwise *)

Section Elementwise.

Variable s : list nat.
Variable l : list xreal.
Hypothesis Hl : List.length l = size s.

Lemma bshape_nil_r (s' : list nat) : bshape s' [] = s'.
Proof. destruct s'; reflexivity. Qed.

Lemma bshape_same (s' : list nat) : bshape s' s' = s'.
Proof. destruct s'; reflexivity. Qed.

Lemma bcast_pw (g : xreal -> xreal) (a : array) :
  PW s l g a -> bcast (size s) a = map g l.
Proof.
  intros [Hs Hd]. unfold bcast. rewrite Hs, Hd.
  destruct s as [|n s']; [|reflexivity].
  simpl in Hl. destruct l as [|e [|e' l']]; simpl in Hl; try discriminate.
  reflexivity.
Qed.

Lemma bcast_s0 (n : nat) (x : xreal) (a : array) :
  S0 x a -> bcast n a = repeat x n.
Proof. intros [Hs Hd]. unfold bcast. rewrite Hs, Hd. reflexivity. Qed.

Lemma zipw_map_map {A : Type} (f : A -> A -> A) (g h : xreal -> A) (l' : list xreal) :
  zipw f (map g l') (map h l') = map (fun e => f (g e) (h e)) l'.
Proof. induction l' as [|e l' IH]; simpl; [reflexivity | now rewrite IH]. Qed.

Lemma zipw_map_repeat {A B C : Type} (f : A -> B -> C) (g : xreal -> A) (x : B)
  (l' : list xreal) :
  zipw f (map g l') (repeat x (List.length l')) = map (fun e => f (g e) x) l'.
Proof. induction l' as [|e l' IH]; simpl; [reflexivity | now rewrite IH]. Qed.

Lemma zipw_repeat_map {A B C : Type} (f : A -> B -> C) (x : A) (h : xreal -> B)
  (l' : list xreal) :
  zipw f (repeat x (List.length l')) (map h l') = map (fun e => f x (h e)) l'.
Proof. induction l' as [|e l' IH]; simpl; [reflexivity | now rewrite IH]. Qed.

Lemma zipw3_where (gc gb : xreal -> xreal) (x : xreal) (l' : list xreal) :
  zipw3 (fun t x y => if xtruthy t then x else y)
    (map gc l') (repeat x (List.length l')) (map gb l')
  = map (fun e => if xtruthy (gc e) then x else gb e) l'.
Proof. induction l' as [|e l' IH]; simpl; [reflexivity | now rewrite IH]. Qed.

Lemma pw_id (a : array) : shape a = s -> data a = l -> PW s l (fun e => e) a.
Proof. intros Hs Hd. split; [exact Hs | rewrite Hd; symmetry; apply map_id]. Qed.

Lemma pw_unary dt f g a :
  PW s l g a -> PW s l (fun e => f (g e)) (unary dt f a).
Proof.
  intros [Hs Hd]. split; simpl; [exact Hs | rewrite Hd, map_map; reflexivity].
Qed.

Lemma pw_binary dt f g h a b :
  PW s l g a -> PW s l h b -> PW s l (fun e => f (g e) (h e)) (binary dt f a b).
Proof.
  intros Ha Hb. pose proof Ha as [Hsa _]. pose proof Hb as [Hsb _].
  unfold binary. split; simpl; rewrite Hsa, Hsb, bshape_same; [reflexivity|].
  rewrite (bcast_pw g a Ha), (bcast_pw h b Hb). apply zipw_map_map.
Qed.

Lemma pw_binary_s dt f g x a b :
  PW s l g a -> S0 x b -> PW s l (fun e => f (g e) x) (binary dt f a b).
Proof.
  intros Ha Hb. pose proof Ha as [Hsa _]. pose proof Hb as [Hsb _].
  unfold binary. split; simpl; rewrite Hsa, Hsb, bshape_nil_r; [reflexivity|].
  rewrite (bcast_pw g a Ha), (bcast_s0 _ x b Hb), <- Hl.
  apply zipw_map_repeat.
Qed.

Lemma pw_s_binary dt f x h a b :
  S0 x a -> PW s l h b -> PW s l (fun e => f x (h e)) (binary dt f a b).
Proof.
  intros Ha Hb. pose proof Ha as [Hsa _]. pose proof Hb as [Hsb _].
  unfold binary. split; simpl; rewrite Hsa, Hsb; cbn [bshape]; [reflexivity|].
  rewrite (bcast_pw h b Hb), (bcast_s0 _ x a Ha), <- Hl.
  apply zipw_repeat_map.
Qed.

Lemma pw_compare_s f g x a b :
  PW s l g a -> S0 x b -> PW s l (fun e => xbool (f (g e) x)) (compare f a b).
Proof.
  intros Ha Hb. pose proof Ha as [Hsa _]. pose proof Hb as [Hsb _].
  unfold compare. split; simpl; rewrite Hsa, Hsb, bshape_nil_r; [reflexivity|].
  rewrite (bcast_pw g a Ha), (bcast_s0 _ x b Hb), <- Hl.
  apply (zipw_map_repeat (fun x0 y => xbool (f x0 y))).
Qed.

Lemma pw_where gc x gb cond a b :
  PW s l gc cond -> S0 x a -> PW s l gb b ->
  PW s l (fun e => if xtruthy (gc e) then x else gb e) (where_ cond a b).
Proof.
  intros Hc Ha Hb. pose proof Hc as [Hsc _]. pose proof Ha as [Hsa _].
  pose proof Hb as [Hsb _].
  unfold where_. split; simpl; rewrite Hsc, Hsa, Hsb; simpl; rewrite bshape_same;
    [reflexivity|].
  rewrite (bcast_pw gc cond Hc), (bcast_pw gb b Hb), (bcast_s0 _ x a Ha), <- Hl.
  apply zipw3_where.
Qed.

End Elementwise.

Lemma s0_unary dt f x a : S0 x a -> S0 (f x) (unary dt f a).
Proof. intros [Hs Hd]. split; simpl; [exact Hs | rewrite Hd; reflexivity]. Qed.

Lemma s0_binary dt f x y a b :
  S0 x a -> S0 y b -> S0 (f x y) (binary dt f a b).
Proof.
  intros [Hsa Hda] [Hsb Hdb]. unfold binary, bcast.
  split; simpl; rewrite Hsa, Hsb; [reflexivity | rewrite Hda, Hdb; reflexivity].
Qed.

Lemma s0_pyint (z : Z) : S0 (Fin (IZR z)) (pyint z).
Proof. split; reflexivity. Qed.

Lemma s0_pyfloat (x : R) : S0 (Fin x) (pyfloat x).
Proof. split; reflexivity. Qed.

Lemma s0_idx (i : nat) : S0 (Fin (INR i)) (idx i).
Proof. split; reflexivity. Qed.

(* ------------------------------------------------------------------------- *)
(** ** [_num_integral] element by element *)

Module GaussianKernel.

Lemma elem_go_S (cv : xreal) (k i : nat) (e s : xreal) :
  elem_go cv (S k) i e s = elem_go cv k (S i) e (step_elem cv i e s).
Proof. reflexivity. Qed.

Section Kernel.

Variables r c : array.
Variable cv : xreal.
Hypothesis Hwf : wf r.
Hypothesis Hc : S0 cv c.

Lemma trapezoidal_sum_pw (i : nat) (g : xreal -> xreal) (v : array) :
  PW (shape r) (data r) g v ->
  exists b, Gaussian.trapezoidal_sum r c i v = jnp.add v b
    /\ PW (shape r) (data r) (fun e => step_elem cv i e (g e)) (jnp.add v b).
Proof.
  intros Hv.
  set (s := shape r) in *. set (l := data r) in *.
  assert (Hl : List.length l = size s) by exact Hwf.
  assert (Hr : PW s l (fun e => e) r) by (apply pw_id; reflexivity).
  pose proof (pw_binary_s s l Hl to_float xdiv _ _ _ _ Hr (s0_pyfloat 200)) as Hdx.
  pose proof (pw_binary_s s l Hl keep_dtype xmul _ _ _ _ Hdx (s0_idx i)) as Hxl.
  pose proof (s0_binary keep_dtype xadd _ _ _ _ (s0_idx i) (s0_pyint 1)) as Hi1.
  pose proof (pw_binary_s s l Hl keep_dtype xmul _ _ _ _ Hdx Hi1) as Hxr.
  pose proof (s0_unary keep_dtype xopp _ _ Hc) as Hnc.
  pose proof (pw_compare_s s l Hl xeqb _ _ _ _ Hxl (s0_pyint 0)) as Hcond.
  pose proof (pw_unary s l keep_dtype (fun x => xmul x x) _ _ Hxl) as Hsql.
  pose proof (pw_s_binary s l Hl keep_dtype xmul _ _ _ _ Hnc Hsql) as Hml.
  pose proof (pw_unary s l to_float xexp _ _ Hml) as Hel.
  pose proof (pw_s_binary s l Hl keep_dtype xsub _ _ _ _ (s0_pyint 1) Hel) as Hsl.
  pose proof (pw_binary s l Hl to_float xdiv _ _ _ _ Hsl Hxl) as Hdl.
  pose proof (pw_where s l Hl _ _ _ _ _ _ Hcond (s0_pyint 0) Hdl) as Hyl.
  pose proof (pw_unary s l keep_dtype (fun x => xmul x x) _ _ Hxr) as Hsqr.
  pose proof (pw_s_binary s l Hl keep_dtype xmul _ _ _ _ Hnc Hsqr) as Hmr.
  pose proof (pw_unary s l to_float xexp _ _ Hmr) as Her.
  pose proof (pw_s_binary s l Hl keep_dtype xsub _ _ _ _ (s0_pyint 1) Her) as Hsr.
  pose proof (pw_binary s l Hl to_float xdiv _ _ _ _ Hsr Hxr) as Hyr.
  pose proof (pw_binary s l Hl keep_dtype xadd _ _ _ _ Hyl Hyr) as Hsum.
  pose proof (pw_binary_s s l Hl to_float xdiv _ _ _ _ Hsum (s0_pyint 2)) as Hh.
  pose proof (pw_binary s l Hl keep_dtype xmul _ _ _ _ Hh Hdx) as Hcontrib.
  pose proof (pw_binary s l Hl keep_dtype xadd _ _ _ _ Hv Hcontrib) as Hres.
  eexists. split; [reflexivity | exact Hres].
Qed.

Lemma add_f64 (d : list xreal) (b : array) :
  dtype_of (jnp.add (mk_array (shape r) DFloat64 false d) b) = DFloat64
  /\ weak (jnp.add (mk_array (shape r) DFloat64 false d) b) = false.
Proof.
  unfold jnp.add, binary; simpl.
  destruct (weak b), (dtype_of b); split; reflexivity.
Qed.

Lemma trapezoidal_sum_eq (i : nat) (g : xreal -> xreal) :
  Gaussian.trapezoidal_sum r c i
    (mk_array (shape r) DFloat64 false (map g (data r)))
  = mk_array (shape r) DFloat64 false
      (map (fun e => step_elem cv i e (g e)) (data r)).
Proof.
  destruct (trapezoidal_sum_pw i g (mk_array (shape r) DFloat64 false
              (map g (data r)))) as [b [Heq [Hs Hd]]];
    [split; reflexivity|].
  rewrite Heq. destruct (add_f64 (map g (data r)) b) as [Hdt Hw].
  destruct (jnp.add _ b) as [s' d' w' l'] eqn:E; simpl in *.
  now subst.
Qed.

Lemma fori_go_eq (k i : nat) (g : xreal -> xreal) :
  fori_go k i (Gaussian.trapezoidal_sum r c)
    (mk_array (shape r) DFloat64 false (map g (data r)))
  = Ok (mk_array (shape r) DFloat64 false
          (map (fun e => elem_go cv k i e (g e)) (data r))).
Proof.
  revert i g. induction k as [|k IH]; intros i g; simpl.
  - reflexivity.
  - rewrite trapezoidal_sum_eq. unfold same_aval; simpl.
    destruct (list_eq_dec Nat.eq_dec (shape r) (shape r)) as [_|n]; [|congruence].
    simpl. rewrite IH. reflexivity.
Qed.

(** [_num_integral] evaluates the 200-step fold on each element of [r]
    separately and returns a [float64] array of [r]'s shape. *)
Lemma num_integral_elementwise :
  Gaussian._num_integral r c
  = Ok (mk_array (shape r) DFloat64 false
          (map (fun e => elem_go cv 200 0 e (Fin 0)) (data r))).
Proof.
  unfold Gaussian._num_integral, zeros_like_float, fori_loop.
  rewrite <- Hwf.
  assert (Hz : repeat (Fin 0) (List.length (data r))
               = map (fun _ => Fin 0) (data r)).
  { clear Hwf. induction (data r) as [|e l IH]; simpl; [reflexivity | now rewrite IH]. }
  rewrite Hz. apply fori_go_eq.
Qed.

End Kernel.

End GaussianKernel.

(* ------------------------------------------------------------------------- *)
(** ** The kernel on scalars *)

Module KernelScalar.
Import GaussianKernel.

Lemma scalar_f64_wf (x : xreal) : wf (scalar_f64 x).
Proof. reflexivity. Qed.

Lemma num_integral_scalar (x : xreal) (c : R) :
  Gaussian._num_integral (scalar_f64 x) (pyfloat c)
  = Ok (scalar_f64 (elem_go (Fin c) 200 0 x (Fin 0))).
Proof.
  rewrite (num_integral_elementwise _ _ _ (scalar_f64_wf x) (s0_pyfloat c)).
  reflexivity.
Qed.

(** At [r = 0] the right edge [x_right] is [0] as well and is not guarded:
    [y_right] is [0/0]. *)
Lemma step_elem_at_zero (c : R) (i : nat) (s : xreal) :
  step_elem (Fin c) i (Fin 0) s = NaN.
Proof.
  unfold step_elem. rewrite xdiv_fin by lra.
  replace (0 / 200) with 0 by field.
  cbn [xmul xadd xopp xsub xexp].
  rewrite !Rmult_0_l, Rmult_0_r, exp_0.
  rewrite (xdiv_zero_zero (1 + Ropp 1) 0) by ring.
  destruct (if xtruthy _ then _ else _); cbn; apply xadd_nan_r.
Qed.

Lemma elem_go_at_zero (c : R) (k i : nat) (s : xreal) :
  elem_go (Fin c) (S k) i (Fin 0) s = NaN.
Proof.
  revert i s. induction k as [|k IH]; intros i s;
    rewrite elem_go_S, step_elem_at_zero; [reflexivity | apply IH].
Qed.

Lemma num_integral_at_zero (c : R) :
  Gaussian._num_integral (scalar_f64 (Fin 0)) (pyfloat c) = Ok (scalar_f64 NaN).
Proof. rewrite num_integral_scalar, elem_go_at_zero. reflexivity. Qed.

Lemma f_nonzero (c x : R) :
  x <> 0 -> TrapezoidSpec.f c x = (1 - exp (- c * x ^ 2)) / x.
Proof.
  intros Hx. unfold TrapezoidSpec.f. destruct (Req_EM_T x 0); [contradiction | reflexivity].
Qed.

Lemma f_zero (c : R) : TrapezoidSpec.f c 0 = 0.
Proof. unfold TrapezoidSpec.f. destruct (Req_EM_T 0 0); [reflexivity | congruence]. Qed.

Lemma prod_div_nz (a b d : R) : a <> 0 -> b <> 0 -> d <> 0 -> a * b / d <> 0.
Proof.
  intros Ha Hb Hd. unfold Rdiv.
  repeat apply Rmult_integral_contrapositive_currified; auto.
  apply Rinv_neq_0_compat; exact Hd.
Qed.

Lemma div_prod_nz (a b d : R) : a <> 0 -> b <> 0 -> d <> 0 -> a / d * b <> 0.
Proof.
  intros Ha Hb Hd. replace (a / d * b) with (b * a / d) by (field; exact Hd).
  apply prod_div_nz; assumption.
Qed.

(** For [r <> 0] one step adds exactly the trapezoid [i] of the spec. *)
Lemma step_elem_pos (c r s : R) (i : nat) :
  r <> 0 ->
  step_elem (Fin c) i (Fin r) (Fin s) = Fin (s + TrapezoidSpec.term r c i).
Proof.
  intros Hr. unfold step_elem, TrapezoidSpec.term.
  rewrite xdiv_fin by lra.
  cbn [xmul xadd xopp xsub xexp].
  assert (Hi1 : 0 < INR i + 1) by (pose proof (pos_INR i); lra).
  rewrite (xdiv_fin _ (r / 200 * (INR i + 1))) by (apply div_prod_nz; lra).
  replace (INR (i + 1)) with (INR i + 1) by (rewrite plus_INR; reflexivity).
  rewrite (f_nonzero c ((INR i + 1) * r / 200)) by (apply prod_div_nz; lra).
  destruct i as [|i].
  - cbn [INR]. rewrite Rmult_0_r.
    replace (0 * r / 200) with 0 by field. rewrite f_zero.
    cbn [xbool xeqb]. destruct (Req_EM_T 0 0) as [_|n]; [|congruence].
    cbv iota beta. cbn [xbool xtruthy].
    destruct (Req_EM_T 1 0) as [e|_]; [lra|].
    cbv iota beta. rewrite xadd_fin, (xdiv_fin _ 2), xmul_fin by lra. cbv iota beta.
    replace (r / 200 * (0 + 1) * (r / 200 * (0 + 1))) with (((0 + 1) * r / 200) ^ 2)
      by field.
    f_equal. field. lra.
  - assert (Hi : 0 < INR (S i)) by (apply lt_0_INR; lia).
    assert (Hxl : r / 200 * INR (S i) <> 0) by (apply div_prod_nz; lra).
    rewrite (f_nonzero c (INR (S i) * r / 200)) by (apply prod_div_nz; lra).
    cbn [xbool xeqb].
    destruct (Req_EM_T (r / 200 * INR (S i)) 0) as [e|_]; [contradiction|].
    cbv iota beta. cbn [xbool xtruthy].
    destruct (Req_EM_T 0 0) as [_|n]; [|congruence].
    rewrite (xdiv_fin _ (r / 200 * INR (S i))) by exact Hxl.
    cbv iota beta. rewrite xadd_fin, (xdiv_fin _ 2), xmul_fin by lra. cbv iota beta.
    replace (r / 200 * INR (S i) * (r / 200 * INR (S i)))
      with ((INR (S i) * r / 200) ^ 2) by field.
    replace (r / 200 * (INR (S i) + 1) * (r / 200 * (INR (S i) + 1)))
      with (((INR (S i) + 1) * r / 200) ^ 2) by field.
    f_equal. field. lra.
Qed.

Lemma elem_go_pos (c r : R) (k i : nat) (s : R) :
  r <> 0 ->
  elem_go (Fin c) k i (Fin r) (Fin s)
  = Fin (fold_left (fun acc j => acc + TrapezoidSpec.term r c j) (seq i k) s).
Proof.
  intros Hr. revert i s. induction k as [|k IH]; intros i s; [reflexivity|].
  rewrite elem_go_S, step_elem_pos by exact Hr. apply IH.
Qed.

Lemma num_integral_pos (r c : R) :
  r <> 0 ->
  Gaussian._num_integral (scalar_f64 (Fin r)) (pyfloat c)
  = Ok (scalar_f64 (Fin (TrapezoidSpec.trapezoid r c))).
Proof.
  intros Hr. rewrite num_integral_scalar, elem_go_pos by exact Hr. reflexivity.
Qed.

(** Away from [r = 0] the result grows with [r]. *)
Lemma exp_le (x y : R) : x <= y -> exp x <= exp y.
Proof.
  intros H. destruct (Rle_lt_or_eq_dec x y H) as [Hlt|Heq].
  - left. apply exp_increasing, Hlt.
  - right. rewrite Heq. reflexivity.
Qed.

Lemma edge_mono (c r1 r2 : R) (k : nat) :
  0 <= c -> 0 < r1 -> r1 <= r2 ->
  TrapezoidSpec.f c (INR k * r1 / 200) * (r1 / 200)
  <= TrapezoidSpec.f c (INR k * r2 / 200) * (r2 / 200).
Proof.
  intros Hc H1 H12. destruct k as [|k].
  - cbn [INR]. replace (0 * r1 / 200) with 0 by field.
    replace (0 * r2 / 200) with 0 by field. rewrite f_zero. lra.
  - assert (HK : 0 < INR (S k)) by (apply lt_0_INR; lia).
    rewrite !f_nonzero by (apply prod_div_nz; lra).
    set (K := INR (S k)) in *.
    replace ((1 - exp (- c * (K * r1 / 200) ^ 2)) / (K * r1 / 200) * (r1 / 200))
      with ((1 - exp (- c * (K * r1 / 200) ^ 2)) / K) by (field; lra).
    replace ((1 - exp (- c * (K * r2 / 200) ^ 2)) / (K * r2 / 200) * (r2 / 200))
      with ((1 - exp (- c * (K * r2 / 200) ^ 2)) / K) by (field; lra).
    unfold Rdiv. apply Rmult_le_compat_r; [left; apply Rinv_0_lt_compat, HK|].
    assert (Hsq : (K * r1 / 200) ^ 2 <= (K * r2 / 200) ^ 2).
    { apply pow_incr. split.
      - left. apply Rmult_lt_0_compat; [nra | lra].
      - unfold Rdiv. apply Rmult_le_compat_r; [lra | nra]. }
    assert (He : exp (- c * (K * r2 / 200) ^ 2) <= exp (- c * (K * r1 / 200) ^ 2))
      by (apply exp_le; nra).
    lra.
Qed.

Lemma term_mono (c r1 r2 : R) (i : nat) :
  0 <= c -> 0 < r1 -> r1 <= r2 ->
  TrapezoidSpec.term r1 c i <= TrapezoidSpec.term r2 c i.
Proof.
  intros Hc H1 H12. unfold TrapezoidSpec.term.
  pose proof (edge_mono c r1 r2 i Hc H1 H12) as Hl.
  pose proof (edge_mono c r1 r2 (i + 1) Hc H1 H12) as Hr.
  lra.
Qed.

Lemma fold_sum_mono (t1 t2 : nat -> R) (js : list nat) (s1 s2 : R) :
  s1 <= s2 -> (forall j, t1 j <= t2 j) ->
  fold_left (fun acc j => acc + t1 j) js s1
  <= fold_left (fun acc j => acc + t2 j) js s2.
Proof.
  revert s1 s2. induction js as [|j js IH]; intros s1 s2 Hs Ht; simpl; [exact Hs|].
  apply IH; [specialize (Ht j); lra | exact Ht].
Qed.

Lemma trapezoid_mono (c r1 r2 : R) :
  0 <= c -> 0 < r1 -> r1 <= r2 ->
  TrapezoidSpec.trapezoid r1 c <= TrapezoidSpec.trapezoid r2 c.
Proof.
  intros Hc H1 H12. unfold TrapezoidSpec.trapezoid.
  apply fold_sum_mono; [lra|]. intros j. apply term_mono; assumption.
Qed.

(** [_num_integral(r1, c) <= _num_integral(r2, c)] holds for
    [0 < r1 <= r2] and [c >= 0]. *)
Lemma num_integral_monotone_pos (c r1 r2 : R) :
  0 <= c -> 0 < r1 -> r1 <= r2 ->
  le_0d (Gaussian._num_integral (scalar_f64 (Fin r1)) (pyfloat c))
        (Gaussian._num_integral (scalar_f64 (Fin r2)) (pyfloat c)) = true.
Proof.
  intros Hc H1 H12.
  rewrite !num_integral_pos by lra. cbn [le_0d scalar_f64 data hd xleb].
  destruct (Rle_dec _ _) as [_|n]; [reflexivity|].
  exfalso. apply n, trapezoid_mono; assumption.
Qed.

End KernelScalar.

(* ------------------------------------------------------------------------- *)
(** ** Gaussian closed forms on finite inputs *)

Module GaussianFacts.

Ltac pos :=
  match goal with
  | |- 0 < _ * _ => apply Rmult_lt_0_compat; pos
  | |- 0 < _ / _ => apply Rdiv_lt_0_compat; pos
  | |- 0 < sqrt _ => apply sqrt_lt_R0; pos
  | |- 0 < PI => apply PI_RGT_0
  | |- 0 < exp _ => apply exp_pos
  | _ => assumption || lra
  end.

Ltac nz := apply Rgt_not_eq; unfold Rgt; pos.

(** Rewrite finite operations into real arithmetic, discharging the
    nonzero divisors and nonnegative square-root arguments. *)
Ltac xfin :=
  repeat first
    [ rewrite xmul_fin | rewrite xadd_fin | rewrite xsub_fin
    | rewrite xopp_fin | rewrite xexp_fin
    | rewrite xdiv_fin by nz
    | rewrite xsqrt_fin by (left; pos) ].

Lemma amp_roundtrip (a sx sy : R) :
  0 < sx -> 0 < sy ->
  Gaussian._amp3d_to_2d (Gaussian._amp2d_to_3d (Fin a) (Fin sx) (Fin sy))
    (Fin sx) (Fin sy) = Fin a.
Proof.
  intros Hx Hy. unfold Gaussian._amp3d_to_2d, Gaussian._amp2d_to_3d, Gaussian.pi.
  xfin. f_equal. field.
  split; apply Rgt_not_eq; unfold Rgt; pos.
Qed.

Lemma alpha_abs_fin (R0 amp sigma : R) :
  0 < sigma -> 0 < R0 ->
  exists v, Gaussian.alpha_abs (Fin R0) (Fin amp) (Fin sigma) = Fin v.
Proof.
  intros Hs HR.
  unfold Gaussian.alpha_abs, Gaussian.mass_2d, Gaussian._amp2d_to_3d, Gaussian.pi.
  cbv zeta. xfin. eexists; reflexivity.
Qed.

Lemma d_alpha_dr_fin (R0 amp sigma : R) :
  0 < sigma -> 0 < R0 ->
  exists v, Gaussian.d_alpha_dr (Fin R0) (Fin amp) (Fin sigma) (Fin sigma) = Fin v.
Proof.
  intros Hs HR.
  unfold Gaussian.d_alpha_dr, Gaussian._amp2d_to_3d, Gaussian.pi.
  cbv zeta. xfin. eexists; reflexivity.
Qed.

(** The radius floors of [derivatives] ([R <= ds]) and [hessian]
    ([r < ds]) give a radius of at least [1e-5]. *)
Lemma clamp_le (q : R) :
  exists rr, 1 / 100000 <= rr
    /\ (if xleb (Fin q) Gaussian.ds then Gaussian.ds else Fin q) = Fin rr.
Proof.
  unfold Gaussian.ds. cbn [xleb].
  destruct (Rle_dec q (1 / 100000)) as [H|H].
  - exists (1 / 100000). split; [lra | reflexivity].
  - exists q. split; [lra | reflexivity].
Qed.

Lemma clamp_lt (q : R) :
  exists rr, 1 / 100000 <= rr
    /\ (if xltb (Fin q) Gaussian.ds then Gaussian.ds else Fin q) = Fin rr.
Proof.
  unfold Gaussian.ds. cbn [xltb].
  destruct (Rlt_dec q (1 / 100000)) as [H|H].
  - exists (1 / 100000). split; [lra | reflexivity].
  - exists q. split; [lra | reflexivity].
Qed.

Ltac clamp :=
  match goal with
  | |- context [if xleb (Fin ?q) Gaussian.ds then _ else _] =>
      let rr := fresh "rr" in let Hrr := fresh "Hrr" in let E := fresh "E" in
      destruct (clamp_le q) as [rr [Hrr E]]; rewrite E
  | |- context [if xltb (Fin ?q) Gaussian.ds then _ else _] =>
      let rr := fresh "rr" in let Hrr := fresh "Hrr" in let E := fresh "E" in
      destruct (clamp_lt q) as [rr [Hrr E]]; rewrite E
  end.

(** At every finite point the deflection is finite; at the center it is
    exactly [(0, 0)]. *)
Lemma derivatives_fin (x y amp sigma cx cy : R) :
  0 < sigma ->
  exists rr v, 1 / 100000 <= rr
    /\ Gaussian.derivatives (Fin x) (Fin y) (Fin amp) (Fin sigma) (Fin cx) (Fin cy)
       = (Fin (v / rr * (x + - cx)), Fin (v / rr * (y + - cy))).
Proof.
  intros Hs. unfold Gaussian.derivatives. cbv zeta.
  rewrite !xsub_fin, !xmul_fin, xadd_fin.
  rewrite xsqrt_fin by (pose proof (Rle_0_sqr (x + - cx));
    pose proof (Rle_0_sqr (y + - cy)); unfold Rsqr in *; lra).
  clamp.
  destruct (alpha_abs_fin rr amp sigma Hs) as [v Hv]; [lra|].
  rewrite Hv. exists rr, v. split; [exact Hrr|].
  rewrite xdiv_fin by lra. reflexivity.
Qed.

Lemma hessian_fin (x y amp sigma cx cy : R) :
  0 < sigma ->
  exists a b d, Gaussian.hessian (Fin x) (Fin y) (Fin amp) (Fin sigma) (Fin cx) (Fin cy)
    = (Fin a, Fin b, Fin b, Fin d).
Proof.
  intros Hs. unfold Gaussian.hessian. cbv zeta.
  rewrite !xsub_fin, !xmul_fin, xadd_fin.
  rewrite xsqrt_fin by (pose proof (Rle_0_sqr (x + - cx));
    pose proof (Rle_0_sqr (y + - cy)); unfold Rsqr in *; lra).
  clamp.
  destruct (alpha_abs_fin rr amp sigma Hs) as [v Hv]; [lra|].
  destruct (d_alpha_dr_fin rr amp sigma Hs) as [w Hw]; [lra|].
  rewrite Hv, Hw.
  assert (Hr : 0 < rr) by lra.
  xfin. do 3 eexists. reflexivity.
Qed.

End GaussianFacts.

(* ------------------------------------------------------------------------- *)
(** ** [sis.py]: name resolution and the tangent rules at the origin *)

Module SISFacts.

Lemma function_raises {T : Type} (o : num_ops T) (x y t cx cy : T) :
  SIS.function o SIS.module_globals x y t cx cy = Raise (NameError "jnp").
Proof. reflexivity. Qed.

Lemma derivatives_raises (x y t cx cy : xreal) :
  SIS.derivatives SIS.module_globals x y t cx cy = Raise (NameError "jnp").
Proof. reflexivity. Qed.

Lemma hessian_raises (x y t cx cy : xreal) :
  SIS.hessian SIS.module_globals x y t cx cy = Raise (NameError "jacfwd").
Proof. reflexivity. Qed.

(** With [jnp] bound, [grad] of [theta_E * sqrt(x^2 + y^2)] at the origin
    multiplies the zero tangent of [x^2 + y^2] by [0.5 / sqrt 0 = inf]. *)
Lemma derivatives_origin_with_jnp :
  SIS.derivatives ("jnp" :: SIS.module_globals)
    (Fin 0) (Fin 0) (Fin 1) (Fin 0) (Fin 0) = Ok (NaN, NaN).
Proof.
  unfold SIS.derivatives, SIS.grad_01, SIS.function.
  cbn -[Rplus Rmult Ropp Rdiv sqrt Req_EM_T Rlt_dec].
  rewrite !Ropp_0, !Rplus_0_r, !Rmult_0_l, !Rmult_0_r, !Rplus_0_r, sqrt_0.
  unfold xscale_inf.
  repeat match goal with
  | |- context [Rlt_dec ?a ?b] => destruct (Rlt_dec a b); try (exfalso; lra)
  | |- context [Req_dec_T ?a ?b] => destruct (Req_dec_T a b); try (exfalso; lra)
  end.
  reflexivity.
Qed.

(** Whenever [SIS.hessian] returns, its second and third entries are the
    same value. *)
Lemma hessian_mixed_same (env : SIS.namespace) (x y t cx cy a b c d : xreal) :
  SIS.hessian env x y t cx cy = Ok (a, b, c, d) -> b = c.
Proof.
  unfold SIS.hessian.
  destruct (negb (SIS.bound env "jacfwd")); [discriminate|].
  destruct (negb (SIS.bound env "jacrev")); [discriminate|].
  destruct (SIS.jacfwd_jacrev_01 _ _ _ _ _ _) as [[[hxx hxy] [hyx hyy]]|e];
    cbn; [|discriminate].
  intros H. inversion H. reflexivity.
Qed.

Lemma conversions_roundtrip (t : R) :
  SIS.rho2theta (SIS.theta2rho (Fin t)) = Fin t
  /\ SIS.theta2rho (SIS.rho2theta (Fin t)) = Fin t.
Proof.
  assert (H : PI * 2 <> 0) by (pose proof PI_RGT_0; lra).
  unfold SIS.rho2theta, SIS.theta2rho, SIS.pi. cbn [xmul].
  split; unfold xdiv; (destruct (Req_EM_T (PI * 2) 0); [contradiction|]);
    f_equal; field; pose proof PI_RGT_0; lra.
Qed.

End SISFacts.

(* ========================================================================= *)
(** * The specification's claims *)

Module Claims.
Import KernelScalar GaussianFacts SISFacts.

(** C1: at radius [r = 0] the kernel does not return [0]: the first
    subinterval has [x_right = 0], [y_right = (1 - exp 0) / 0 = 0/0 = NaN]
    (only [y_left] is guarded), and the [NaN] propagates into the sum. *)
Theorem num_integral_at_zero_nan (c : R) :
  Gaussian._num_integral (scalar_f64 (Fin 0)) (pyfloat c) = Ok (scalar_f64 NaN).
Proof. exact (num_integral_at_zero c). Qed.

(** C2: for [r > 0] and [c > 0] the kernel returns the composite trapezoidal
    sum with 200 subintervals, folded from the left starting at [0], with
    the integrand's value at [x = 0] replaced by [0]. *)
Theorem num_integral_is_trapezoid (r c : R) :
  0 < r -> 0 < c ->
  Gaussian._num_integral (scalar_f64 (Fin r)) (pyfloat c)
  = Ok (scalar_f64 (Fin (TrapezoidSpec.trapezoid r c))).
Proof. intros Hr _. apply num_integral_pos. lra. Qed.

Lemma num_integral_is_trapezoid_witness :
  (0 < 1 /\ 0 < 1) /\
  Gaussian._num_integral (scalar_f64 (Fin 1)) (pyfloat 1)
  = Ok (scalar_f64 (Fin (TrapezoidSpec.trapezoid 1 1))).
Proof. split; [split; lra | apply (num_integral_is_trapezoid 1 1); lra]. Defined.

(** C3: in the namespace of [sis.py] ([jnp], [jacfwd], [jacrev] unbound)
    [SIS.function] raises [NameError] on every input, over plain numbers
    and over JAX's tangent pairs alike, so [SIS.derivatives] raises it too;
    [SIS.hessian] raises [NameError] for [jacfwd]. *)
Theorem sis_always_raises :
  (forall (T : Type) (o : num_ops T) (x y t cx cy : T),
      SIS.function o SIS.module_globals x y t cx cy = Raise (NameError "jnp"))
  /\ (forall x y t cx cy : xreal,
      SIS.derivatives SIS.module_globals x y t cx cy = Raise (NameError "jnp"))
  /\ (forall x y t cx cy : xreal,
      SIS.hessian SIS.module_globals x y t cx cy = Raise (NameError "jacfwd")).
Proof.
  split; [|split].
  - intros T o. apply function_raises.
  - apply derivatives_raises.
  - apply hessian_raises.
Qed.

(** C4: [Gaussian.derivatives] and [Gaussian.hessian] are finite at the
    center [x = y = 0] (the radius is raised to [1e-5] before dividing),
    but [SIS] has no radius floor: at the origin [SIS.derivatives] raises
    [NameError], and even with [jnp] bound it returns [(NaN, NaN)]. *)
Theorem center_finite_gaussian_not_sis :
  (forall amp sigma : R, 0 < sigma ->
     (exists a b, Gaussian.derivatives (Fin 0) (Fin 0) (Fin amp) (Fin sigma)
                    (Fin 0) (Fin 0) = (Fin a, Fin b))
     /\ (exists a b d, Gaussian.hessian (Fin 0) (Fin 0) (Fin amp) (Fin sigma)
                         (Fin 0) (Fin 0) = (Fin a, Fin b, Fin b, Fin d)))
  /\ SIS.derivatives SIS.module_globals (Fin 0) (Fin 0) (Fin 1) (Fin 0) (Fin 0)
     = Raise (NameError "jnp")
  /\ SIS.derivatives ("jnp" :: SIS.module_globals)
       (Fin 0) (Fin 0) (Fin 1) (Fin 0) (Fin 0) = Ok (NaN, NaN).
Proof.
  split; [|split].
  - intros amp sigma Hs. split.
    + destruct (derivatives_fin 0 0 amp sigma 0 0 Hs) as [rr [v [_ E]]].
      rewrite E. eexists; eexists; reflexivity.
    + exact (hessian_fin 0 0 amp sigma 0 0 Hs).
  - apply derivatives_raises.
  - exact derivatives_origin_with_jnp.
Qed.

(** C5: [Gaussian.hessian] returns the same value as [f_xy] and [f_yx] on
    every input, and so does [SIS.hessian] whenever it returns; but in the
    namespace of [sis.py] [SIS.hessian] returns no tuple at all. *)
Theorem hessian_mixed_partials :
  (forall x y amp sigma cx cy a b c d : xreal,
     Gaussian.hessian x y amp sigma cx cy = (a, b, c, d) -> b = c)
  /\ (forall env x y t cx cy a b c d,
        SIS.hessian env x y t cx cy = Ok (a, b, c, d) -> b = c)
  /\ SIS.hessian SIS.module_globals (Fin 1) (Fin 1) (Fin 1) (Fin 0) (Fin 0)
     = Raise (NameError "jacfwd").
Proof.
  split; [|split].
  - intros x y amp sigma cx cy a b c d. unfold Gaussian.hessian.
    intros H. injection H as _ <- <- _. reflexivity.
  - exact hessian_mixed_same.
  - apply hessian_raises.
Qed.

(** C6: the kernel is not monotone on [r >= 0] as a Python comparison:
    [_num_integral(0, 1) <= _num_integral(1, 1)] is [False], the left side
    being [NaN].  (For [0 < r1 <= r2] it is, see
    [KernelScalar.num_integral_monotone_pos].) *)
Theorem num_integral_not_monotone_from_zero :
  le_0d (Gaussian._num_integral (scalar_f64 (Fin 0)) (pyfloat 1))
        (Gaussian._num_integral (scalar_f64 (Fin 1)) (pyfloat 1)) = false.
Proof. rewrite num_integral_at_zero. reflexivity. Qed.

(** C7: for [sigma_x, sigma_y > 0] the amplitude conversions are inverse
    to each other (in exact arithmetic; any amplitude [a]). *)
Theorem amp_conversions_roundtrip (a sx sy : R) :
  0 < sx -> 0 < sy ->
  Gaussian._amp3d_to_2d (Gaussian._amp2d_to_3d (Fin a) (Fin sx) (Fin sy))
    (Fin sx) (Fin sy) = Fin a.
Proof. exact (amp_roundtrip a sx sy). Qed.

Lemma amp_conversions_roundtrip_witness :
  (0 < 1 /\ 0 < 2) /\
  Gaussian._amp3d_to_2d (Gaussian._amp2d_to_3d (Fin 3) (Fin 1) (Fin 2))
    (Fin 1) (Fin 2) = Fin 3.
Proof. split; [split; lra | apply (amp_conversions_roundtrip 3 1 2); lra]. Defined.

(** C8: the output of the kernel has the shape of [r]; its accumulator
    [jnp.zeros_like(r, dtype=float)] is zeros of the shape of [r] with dtype
    [float64] (whatever the dtype of [r]), and so is the output. *)
Theorem num_integral_shape_dtype (r c : array) (cv : xreal) :
  wf r -> S0 cv c ->
  zeros_like_float r
  = mk_array (shape r) DFloat64 false (repeat (Fin 0) (size (shape r)))
  /\ exists a, Gaussian._num_integral r c = Ok a
       /\ shape a = shape r /\ dtype_of a = DFloat64.
Proof.
  intros Hwf Hc. split; [reflexivity|].
  eexists. split; [exact (GaussianKernel.num_integral_elementwise r c cv Hwf Hc)|].
  split; reflexivity.
Qed.

Lemma num_integral_shape_dtype_witness :
  (wf (mk_array [2%nat] DFloat32 false [Fin 1; Fin 2]) /\ S0 (Fin 1) (pyfloat 1)) /\
  (zeros_like_float (mk_array [2%nat] DFloat32 false [Fin 1; Fin 2])
   = mk_array [2%nat] DFloat64 false (repeat (Fin 0) (size [2%nat]))
   /\ exists a, Gaussian._num_integral (mk_array [2%nat] DFloat32 false [Fin 1; Fin 2])
                  (pyfloat 1) = Ok a
        /\ shape a = [2%nat] /\ dtype_of a = DFloat64).
Proof.
  split; [split; [reflexivity | apply s0_pyfloat]|].
  apply (num_integral_shape_dtype (mk_array [2%nat] DFloat32 false [Fin 1; Fin 2])
           (pyfloat 1) (Fin 1)); [reflexivity | apply s0_pyfloat].
Defined.

(** C8, counterexample: for a [float32] radius the accumulator and the
    output are [float64], not of the dtype of [r]. *)
Lemma num_integral_accumulator_not_dtype_of_r :
  dtype_of (zeros_like_float (mk_array [2%nat] DFloat32 false [Fin 1; Fin 2]))
  <> dtype_of (mk_array [2%nat] DFloat32 false [Fin 1; Fin 2])
  /\ exists a, Gaussian._num_integral (mk_array [2%nat] DFloat32 false [Fin 1; Fin 2])
                 (pyfloat 1) = Ok a
       /\ dtype_of a <> DFloat32.
Proof.
  split; [discriminate|].
  eexists. split.
  - exact (GaussianKernel.num_integral_elementwise
             (mk_array [2%nat] DFloat32 false [Fin 1; Fin 2]) (pyfloat 1) (Fin 1)
             eq_refl (s0_pyfloat 1)).
  - discriminate.
Qed.

(** C9: at the lens center the deflection is exactly [(0, 0)]. *)
Theorem derivatives_at_center (x y amp sigma : R) :
  0 < sigma ->
  Gaussian.derivatives (Fin x) (Fin y) (Fin amp) (Fin sigma) (Fin x) (Fin y)
  = (Fin 0, Fin 0).
Proof.
  intros Hs. destruct (derivatives_fin x y amp sigma x y Hs) as [rr [v [_ E]]].
  rewrite E. f_equal; f_equal; ring.
Qed.

Lemma derivatives_at_center_witness :
  0 < 1 /\
  Gaussian.derivatives (Fin 2) (Fin 3) (Fin 5) (Fin 1) (Fin 2) (Fin 3)
  = (Fin 0, Fin 0).
Proof. split; [lra | apply (derivatives_at_center 2 3 5 1); lra]. Defined.

(** C10: in exact arithmetic [rho2theta] and [theta2rho] are inverse to
    each other. *)
Theorem sis_conversions_roundtrip_exact :
  (forall t : R, SIS.rho2theta (SIS.theta2rho (Fin t)) = Fin t)
  /\ (forall r : R, SIS.theta2rho (SIS.rho2theta (Fin r)) = Fin r).
Proof.
  split; intros t; apply (conversions_roundtrip t).
Qed.

Module Float64.
Import PrimFloat.
Local Open Scope float_scope.

(** C10, counterexample: on Python floats neither round trip is exact:
    [theta_E = 0.1] and [rho0 = 5.5] do not come back. *)
Lemma sis_conversions_roundtrip_binary64 :
  PrimFloat.eqb (SIS.Binary64.rho2theta (SIS.Binary64.theta2rho 0x1.999999999999ap-4))
    0x1.999999999999ap-4 = false
  /\ PrimFloat.eqb (SIS.Binary64.theta2rho (SIS.Binary64.rho2theta 5.5)) 5.5 = false.
Proof. split; vm_compute; reflexivity. Qed.

End Float64.

End Claims.


(* ------------------------------------------------------------------------- *)
(** ** [gaussian.py]: closed forms of the other methods *)

Module GaussianMore.
Import GaussianFacts KernelScalar.

Lemma sqrt_sq_mul (a b : R) : 0 <= a -> 0 <= b ->
  (sqrt a * sqrt b) * (sqrt a * sqrt b) = a * b.
Proof.
  intros Ha Hb.
  replace ((sqrt a * sqrt b) * (sqrt a * sqrt b)) with ((sqrt a * sqrt a) * (sqrt b * sqrt b)) by ring.
  rewrite !sqrt_sqrt by assumption. reflexivity.
Qed.

Lemma mass_2d_lens_closed (R0 amp s : R) : 0 < s ->
  Gaussian.mass_2d_lens (Fin R0) (Fin amp) (Fin s)
  = Fin (amp * (1 - exp (- (R0 * R0) / (2 * s * s)))).
Proof.
  intros Hs. unfold Gaussian.mass_2d_lens, Gaussian.mass_2d, Gaussian._amp2d_to_3d, Gaussian.pi.
  cbv zeta. xfin. f_equal.
  replace (- (1 / (2 * s * s)) * (R0 * R0)) with (- (R0 * R0) / (2 * s * s)) by (field; repeat split; nra).
  pose proof (sqrt_sq_mul PI (s * s * 2)) as H.
  assert (HP : 0 < PI) by apply PI_RGT_0.
  assert (Hq : 0 < sqrt PI * sqrt (s * s * 2)) by pos.
  replace (amp / (sqrt PI * sqrt (s * s * 2)) / (sqrt PI * sqrt (s * s * 2)))
    with (amp / ((sqrt PI * sqrt (s * s * 2)) * (sqrt PI * sqrt (s * s * 2)))) by (field; repeat split; nra).
  rewrite H by nra. field. repeat split; nra.
Qed.

Lemma alpha_abs_closed (R0 amp s : R) : 0 < s -> R0 <> 0 ->
  Gaussian.alpha_abs (Fin R0) (Fin amp) (Fin s)
  = Fin (amp * (1 - exp (- (R0 * R0) / (2 * s * s))) / PI / R0).
Proof.
  intros Hs HR. unfold Gaussian.alpha_abs. cbv zeta.
  change (Gaussian.mass_2d (Fin R0) (Gaussian._amp2d_to_3d (Fin amp) (Fin s) (Fin s)) (Fin s))
    with (Gaussian.mass_2d_lens (Fin R0) (Fin amp) (Fin s)).
  rewrite mass_2d_lens_closed by exact Hs. unfold Gaussian.pi.
  pose proof PI_RGT_0.
  rewrite xdiv_fin by lra. rewrite xdiv_fin by exact HR. reflexivity.
Qed.

Lemma alpha_abs_zero (amp s : R) : 0 < s ->
  Gaussian.alpha_abs (Fin 0) (Fin amp) (Fin s) = NaN.
Proof.
  intros Hs. unfold Gaussian.alpha_abs. cbv zeta.
  change (Gaussian.mass_2d (Fin 0) (Gaussian._amp2d_to_3d (Fin amp) (Fin s) (Fin s)) (Fin s))
    with (Gaussian.mass_2d_lens (Fin 0) (Fin amp) (Fin s)).
  rewrite mass_2d_lens_closed by exact Hs. unfold Gaussian.pi.
  pose proof PI_RGT_0.
  rewrite xdiv_fin by lra. apply xdiv_zero_zero; [|reflexivity].
  replace (- (0 * 0) / (2 * s * s)) with 0 by (field; lra).
  rewrite exp_0. field. lra.
Qed.

Lemma d_alpha_dr_closed (R0 amp s : R) : 0 < s -> R0 <> 0 ->
  Gaussian.d_alpha_dr (Fin R0) (Fin amp) (Fin s) (Fin s)
  = Fin (amp / PI * (-1 + (1 + R0 * R0 / (s * s)) * exp (- (R0 * R0) / (2 * s * s)))
         / (R0 * R0)).
Proof.
  intros Hs HR. unfold Gaussian.d_alpha_dr, Gaussian._amp2d_to_3d, Gaussian.pi. cbv zeta.
  pose proof PI_RGT_0.
  assert (HRR : R0 * R0 <> 0) by (intro E; apply HR; nra).
  rewrite (xmul_fin R0 R0), (xdiv_fin 1 (R0 * R0)) by exact HRR.
  xfin. f_equal.
  replace (- (1 / (2 * s * s)) * (R0 * R0)) with (- (R0 * R0) / (2 * s * s)) by (field; repeat split; nra).
  replace (2 / PI * s * s) with ((s * s * 2) * / PI) by (field; lra).
  rewrite (sqrt_mult_alt (s * s * 2) (/ PI)) by nra. rewrite sqrt_inv.
  assert (H1 : 0 < sqrt (s * s * 2)) by (apply sqrt_lt_R0; nra).
  assert (H2 : 0 < sqrt PI) by (apply sqrt_lt_R0; lra).
  assert (H3 : sqrt PI * sqrt PI = PI) by (apply sqrt_sqrt; lra).
  replace (amp / (sqrt PI * sqrt (s * s * 2)) * (sqrt (s * s * 2) * / sqrt PI))
    with (amp / (sqrt PI * sqrt PI)) by (field; lra).
  rewrite H3. field. repeat split; try lra; nra.
Qed.

Lemma d_alpha_dr_is_derivative (R0 amp s : R) : 0 < s -> 0 < R0 ->
  derivable_pt_lim (fun t => xval (Gaussian.alpha_abs (Fin t) (Fin amp) (Fin s))) R0
    (xval (Gaussian.d_alpha_dr (Fin R0) (Fin amp) (Fin s) (Fin s))).
Proof.
  intros Hs HR. pose proof PI_RGT_0.
  set (k := / (2 * s * s)).
  set (f1 := (fct_cte 1 - comp exp (mult_real_fct (- k) (id * id)))%F).
  assert (D1 : derivable_pt_lim f1 R0 (0 - exp (- k * (R0 * R0)) * (- k * (1 * R0 + R0 * 1)))).
  { apply derivable_pt_lim_minus; [apply derivable_pt_lim_const|].
    apply (derivable_pt_lim_comp (mult_real_fct (- k) (id * id)) exp).
    - apply derivable_pt_lim_scal. apply derivable_pt_lim_mult; apply derivable_pt_lim_id.
    - apply derivable_pt_lim_exp. }
  assert (D2 : derivable_pt_lim (mult_real_fct (amp / PI) (f1 / id)) R0
    (amp / PI * (((0 - exp (- k * (R0 * R0)) * (- k * (1 * R0 + R0 * 1))) * id R0
                  - 1 * f1 R0) / (id R0)²))).
  { apply derivable_pt_lim_scal. apply derivable_pt_lim_div;
      [exact D1 | apply derivable_pt_lim_id | unfold id; lra]. }
  rewrite d_alpha_dr_closed by lra. cbn [xval].
  apply (derivable_pt_lim_locally_ext (mult_real_fct (amp / PI) (f1 / id)%F) _ _ (R0 / 2) (2 * R0)); [lra | |].
  - intros z Hz. rewrite alpha_abs_closed by lra. cbn [xval].
    unfold div_fct, f1, minus_fct, fct_cte, comp, mult_real_fct, mult_fct, id, k.
    replace (- / (2 * s * s) * (z * z)) with (- (z * z) / (2 * s * s)) by (field; nra).
    field. split; lra.
  - replace (amp / PI * (-1 + (1 + R0 * R0 / (s * s)) * exp (- (R0 * R0) / (2 * s * s))) / (R0 * R0))
      with (amp / PI * (((0 - exp (- k * (R0 * R0)) * (- k * (1 * R0 + R0 * 1))) * id R0
                  - 1 * f1 R0) / (id R0)²)); [exact D2|].
    unfold f1, minus_fct, fct_cte, comp, mult_real_fct, mult_fct, id, Rsqr, k.
    replace (- / (2 * s * s) * (R0 * R0)) with (- (R0 * R0) / (2 * s * s)) by (field; nra).
    field. repeat split; nra.
Qed.

Lemma hessian_trace (x y amp s cx cy : R) :
  0 < s ->
  1 / 100000 <= sqrt ((x - cx) * (x - cx) + (y - cy) * (y - cy)) ->
  exists a b d,
    Gaussian.hessian (Fin x) (Fin y) (Fin amp) (Fin s) (Fin cx) (Fin cy)
    = (Fin a, Fin b, Fin b, Fin d)
    /\ a + d = amp / (PI * s * s)
               * exp (- ((x - cx) * (x - cx) + (y - cy) * (y - cy)) / (2 * s * s)).
Proof.
  intros Hs Hr. unfold Gaussian.hessian. cbv zeta.
  rewrite !xsub_fin, !xmul_fin, xadd_fin.
  set (q := (x + - cx) * (x + - cx) + (y + - cy) * (y + - cy)).
  assert (Hq : 0 <= q) by (unfold q; pose proof (Rle_0_sqr (x + - cx));
    pose proof (Rle_0_sqr (y + - cy)); unfold Rsqr in *; lra).
  replace ((x - cx) * (x - cx) + (y - cy) * (y - cy)) with q in * by (unfold q; ring).
  rewrite xsqrt_fin by exact Hq.
  set (r := sqrt q) in *.
  assert (E : (if xltb (Fin r) Gaussian.ds then Gaussian.ds else Fin r) = Fin r).
  { unfold Gaussian.ds. cbn [xltb]. destruct (Rlt_dec r (1 / 100000)); [lra | reflexivity]. }
  rewrite E. clear E.
  assert (H0 : 0 < r) by lra.
  rewrite d_alpha_dr_closed, alpha_abs_closed by lra.
  pose proof PI_RGT_0.
  xfin.
  do 3 eexists. split; [reflexivity|].
  assert (Hrr : r * r = q) by (apply sqrt_sqrt; exact Hq).
  assert (Hx : (x + - cx) * (x + - cx) = r * r - (y + - cy) * (y + - cy))
    by (rewrite Hrr; unfold q; ring).
  rewrite Hx. clearbody r q. subst q.
  field. repeat split; try lra; nra.
Qed.

Lemma num_integral_traced (x : xreal) (c : R) :
  Gaussian._num_integral (Gaussian.traced x) (Gaussian.traced (Fin c))
  = Ok (mk_array [] DFloat64 false [elem_go (Fin c) 200 0 x (Fin 0)]).
Proof.
  rewrite (GaussianKernel.num_integral_elementwise (Gaussian.traced x) _ (Fin c) eq_refl).
  - reflexivity.
  - split; reflexivity.
Qed.

Lemma amp2d_potential (amp s : R) : 0 < s ->
  (Gaussian._amp2d_to_3d (Fin amp) (Fin s) (Fin s)
   / (xsqrt Gaussian.pi * xsqrt (Fin (s * s * 2)))
   * (Fin (2 * 1) / (Fin 2 * Fin (1 / (2 * s * s)))))%xr
  = Fin (amp / PI).
Proof.
  intros Hs. unfold Gaussian._amp2d_to_3d, Gaussian.pi.
  pose proof PI_RGT_0.
  xfin. f_equal.
  pose proof (sqrt_sq_mul PI (s * s * 2)) as H2.
  assert (Hq : 0 < sqrt PI * sqrt (s * s * 2)) by pos.
  replace (amp / (sqrt PI * sqrt (s * s * 2)) / (sqrt PI * sqrt (s * s * 2)))
    with (amp / ((sqrt PI * sqrt (s * s * 2)) * (sqrt PI * sqrt (s * s * 2))))
    by (field; repeat split; nra).
  rewrite H2 by nra. field. repeat split; nra.
Qed.

Lemma function_center (x y amp s : R) : 0 < s ->
  Gaussian.function (Fin x) (Fin y) (Fin amp) (Fin s) (Fin x) (Fin y)
  = Ok (mk_array [] DFloat64 false [NaN]).
Proof.
  intros Hs. unfold Gaussian.function. cbv zeta.
  rewrite !xsub_fin, !Rplus_opp_r, !xmul_fin, xadd_fin, Rmult_0_l, Rplus_0_l.
  rewrite xsqrt_fin, sqrt_0 by lra.
  rewrite (xdiv_fin 1 (2 * s * s)) by nra.
  rewrite num_integral_traced, elem_go_at_zero. cbn [pybind].
  reflexivity.
Qed.

Lemma function_off_center (x y amp s cx cy : R) : 0 < s ->
  let r := sqrt ((x - cx) * (x - cx) + (y - cy) * (y - cy)) in
  r <> 0 ->
  Gaussian._num_integral (Gaussian.traced (Fin r))
    (Gaussian.traced (Fin (1 / (2 * s * s))))
  = Ok (mk_array [] DFloat64 false [Fin (TrapezoidSpec.trapezoid r (1 / (2 * s * s)))])
  /\ Gaussian.function (Fin x) (Fin y) (Fin amp) (Fin s) (Fin cx) (Fin cy)
     = Ok (mk_array [] DFloat64 false
             [Fin (TrapezoidSpec.trapezoid r (1 / (2 * s * s)) * (amp / PI))]).
Proof.
  intros Hs r Hr.
  assert (HN : Gaussian._num_integral (Gaussian.traced (Fin r))
                 (Gaussian.traced (Fin (1 / (2 * s * s))))
               = Ok (mk_array [] DFloat64 false
                       [Fin (TrapezoidSpec.trapezoid r (1 / (2 * s * s)))])).
  { rewrite num_integral_traced, elem_go_pos by exact Hr. reflexivity. }
  split; [exact HN|].
  unfold Gaussian.function. cbv zeta.
  rewrite !xsub_fin, !xmul_fin, xadd_fin.
  rewrite xsqrt_fin by (pose proof (Rle_0_sqr (x + - cx));
    pose proof (Rle_0_sqr (y + - cy)); unfold Rsqr in *; lra).
  rewrite (xdiv_fin 1 (2 * s * s)) by nra.
  replace (sqrt ((x + - cx) * (x + - cx) + (y + - cy) * (y + - cy))) with r
    by (unfold r; f_equal; ring).
  rewrite HN. cbn [pybind].
  rewrite amp2d_potential by exact Hs. reflexivity.
Qed.

Lemma amp_roundtrip_rev (a s1 s2 : R) : 0 < s1 -> 0 < s2 ->
  Gaussian._amp2d_to_3d (Gaussian._amp3d_to_2d (Fin a) (Fin s1) (Fin s2)) (Fin s1) (Fin s2)
  = Fin a.
Proof.
  intros H1 H2. unfold Gaussian._amp3d_to_2d, Gaussian._amp2d_to_3d, Gaussian.pi.
  pose proof PI_RGT_0. xfin. f_equal. field.
  split; apply Rgt_not_eq; unfold Rgt; pos.
Qed.

Lemma mass_2d_lens_mono (amp s R1 R2 : R) : 0 <= amp -> 0 < s -> 0 <= R1 <= R2 ->
  exists m1 m2,
    Gaussian.mass_2d_lens (Fin R1) (Fin amp) (Fin s) = Fin m1
    /\ Gaussian.mass_2d_lens (Fin R2) (Fin amp) (Fin s) = Fin m2
    /\ 0 <= m1 <= m2 /\ m2 <= amp.
Proof.
  intros Ha Hs [H1 H12].
  rewrite !mass_2d_lens_closed by exact Hs.
  do 2 eexists. split; [reflexivity|]. split; [reflexivity|].
  assert (Hss : 0 < 2 * s * s) by nra.
  assert (E2 : exp (- (R2 * R2) / (2 * s * s)) <= exp (- (R1 * R1) / (2 * s * s))).
  { apply exp_le. unfold Rdiv. apply Rmult_le_compat_r.
    - left. apply Rinv_0_lt_compat. exact Hss.
    - nra. }
  assert (E1 : exp (- (R1 * R1) / (2 * s * s)) <= 1).
  { rewrite <- exp_0. apply exp_le. unfold Rdiv.
    assert (0 < / (2 * s * s)) by (apply Rinv_0_lt_compat; exact Hss). nra. }
  pose proof (exp_pos (- (R2 * R2) / (2 * s * s))).
  repeat split; nra.
Qed.

Lemma derivatives_closed (x y amp s cx cy : R) : 0 < s ->
  let R0 := Rmax (sqrt ((x - cx) * (x - cx) + (y - cy) * (y - cy))) (1 / 100000) in
  Gaussian.derivatives (Fin x) (Fin y) (Fin amp) (Fin s) (Fin cx) (Fin cy)
  = (Fin (amp * (1 - exp (- (R0 * R0) / (2 * s * s))) / PI / R0 / R0 * (x - cx)),
     Fin (amp * (1 - exp (- (R0 * R0) / (2 * s * s))) / PI / R0 / R0 * (y - cy))).
Proof.
  intros Hs R0. unfold Gaussian.derivatives. cbv zeta.
  rewrite !xsub_fin, !xmul_fin, xadd_fin.
  rewrite xsqrt_fin by (pose proof (Rle_0_sqr (x + - cx));
    pose proof (Rle_0_sqr (y + - cy)); unfold Rsqr in *; lra).
  assert (E : (if xleb (Fin (sqrt ((x + - cx) * (x + - cx) + (y + - cy) * (y + - cy))))
                 Gaussian.ds then Gaussian.ds
               else Fin (sqrt ((x + - cx) * (x + - cx) + (y + - cy) * (y + - cy))))
              = Fin R0).
  { unfold Gaussian.ds, R0. cbn [xleb]. unfold Rminus.
    destruct (Rle_dec _ _) as [H|H].
    - rewrite Rmax_right by exact H. reflexivity.
    - rewrite Rmax_left by lra. reflexivity. }
  rewrite E. clear E.
  assert (HR : 1 / 100000 <= R0) by apply Rmax_r.
  rewrite alpha_abs_closed by lra.
  rewrite xdiv_fin by lra. reflexivity.
Qed.

End GaussianMore.

(* ------------------------------------------------------------------------- *)
(** ** [sis.py]: the conversions, masses, densities and potential *)

Module SISMore.

Lemma pi_pos : 0 < PI.
Proof. apply PI_RGT_0. Qed.

Lemma theta2rho_fin (t : R) : SIS.theta2rho (Fin t) = Fin (t / (PI * 2)).
Proof.
  unfold SIS.theta2rho, SIS.pi. cbv zeta. rewrite xmul_fin.
  pose proof pi_pos. rewrite xdiv_fin by lra. reflexivity.
Qed.

Lemma sis_mass_3d_lens_closed (r t : R) : SIS.mass_3d_lens (Fin r) (Fin t) = Fin (2 * t * r).
Proof.
  unfold SIS.mass_3d_lens, SIS.mass_3d. cbv zeta. rewrite theta2rho_fin.
  unfold SIS.pi. rewrite !xmul_fin. f_equal. pose proof pi_pos. field. lra.
Qed.

Lemma sis_mass_2d_lens_closed (r t : R) : SIS.mass_2d_lens (Fin r) (Fin t) = Fin (PI * t * r).
Proof.
  unfold SIS.mass_2d_lens, SIS.mass_2d. cbv zeta. rewrite theta2rho_fin.
  unfold SIS.pi. rewrite !xmul_fin. f_equal. pose proof pi_pos. field. lra.
Qed.

Lemma grav_pot_cases (x y rho0 cx cy : R) :
  let r := sqrt ((x - cx) * (x - cx) + (y - cy) * (y - cy)) in
  (r <> 0 -> SIS.grav_pot (Fin x) (Fin y) (Fin rho0) (Fin cx) (Fin cy) = Fin (4 * PI * rho0))
  /\ (r = 0 -> SIS.grav_pot (Fin x) (Fin y) (Fin rho0) (Fin cx) (Fin cy) = NaN).
Proof.
  intros r. unfold SIS.grav_pot, SIS.mass_3d, SIS.pi. cbv zeta.
  rewrite !xsub_fin, !xmul_fin, xadd_fin.
  rewrite xsqrt_fin by (pose proof (Rle_0_sqr (x + - cx));
    pose proof (Rle_0_sqr (y + - cy)); unfold Rsqr in *; lra).
  rewrite !xmul_fin. change (sqrt ((x + - cx) * (x + - cx) + (y + - cy) * (y + - cy))) with r. split; intros Hr.
  - rewrite xdiv_fin by exact Hr. f_equal. field. exact Hr.
  - rewrite Hr. apply xdiv_zero_zero; [ring | reflexivity].
Qed.



Lemma density_2d_lens (x y t cx cy : R) :
  let r := sqrt ((x - cx) * (x - cx) + (y - cy) * (y - cy)) in
  r <> 0 ->
  SIS.density_2d (Fin x) (Fin y) (SIS.theta2rho (Fin t)) (Fin cx) (Fin cy) = Fin (t / (2 * r)).
Proof.
  intros r Hr. unfold SIS.density_2d. cbv zeta. rewrite theta2rho_fin.
  rewrite !xsub_fin, !xmul_fin, xadd_fin.
  rewrite xsqrt_fin by (pose proof (Rle_0_sqr (x + - cx));
    pose proof (Rle_0_sqr (y + - cy)); unfold Rsqr in *; lra).
  unfold SIS.pi. rewrite xmul_fin. change (sqrt ((x + - cx) * (x + - cx) + (y + - cy) * (y + - cy))) with r. rewrite xdiv_fin by exact Hr.
  f_equal. pose proof pi_pos. field. split; lra.
Qed.

Lemma mass_3d_derivative (r rho0 : R) : r <> 0 ->
  derivable_pt_lim (fun t => xval (SIS.mass_3d (Fin t) (Fin rho0))) r
    (4 * PI * (r * r) * xval (SIS.density (Fin r) (Fin rho0))).
Proof.
  intros Hr. unfold SIS.density. cbv zeta. rewrite xmul_fin.
  rewrite xdiv_fin by (intro E; apply Hr; nra). cbn [xval].
  replace (4 * PI * (r * r) * (rho0 / (r * r))) with (4 * PI * rho0 * 1) by (field; exact Hr).
  apply (derivable_pt_lim_ext (mult_real_fct (4 * PI * rho0) id)).
  - intros z. unfold SIS.mass_3d, SIS.pi, mult_real_fct, id. reflexivity.
  - apply derivable_pt_lim_scal, derivable_pt_lim_id.
Qed.

Lemma mass_2d_derivative (x y rho0 cx cy : R) :
  let r := sqrt ((x - cx) * (x - cx) + (y - cy) * (y - cy)) in
  r <> 0 ->
  derivable_pt_lim (fun t => xval (SIS.mass_2d (Fin t) (Fin rho0))) r
    (2 * PI * r * xval (SIS.density_2d (Fin x) (Fin y) (Fin rho0) (Fin cx) (Fin cy))).
Proof.
  intros r Hr. unfold SIS.density_2d. cbv zeta.
  rewrite !xsub_fin, !xmul_fin, xadd_fin.
  rewrite xsqrt_fin by (pose proof (Rle_0_sqr (x + - cx));
    pose proof (Rle_0_sqr (y + - cy)); unfold Rsqr in *; lra).
  unfold SIS.pi. rewrite xmul_fin. change (sqrt ((x + - cx) * (x + - cx) + (y + - cy) * (y + - cy))) with r. rewrite xdiv_fin by exact Hr. cbn [xval].
  replace (2 * PI * r * (PI * rho0 / r)) with (2 * rho0 * (PI * PI) * 1) by (field; exact Hr).
  apply (derivable_pt_lim_ext (mult_real_fct (2 * rho0 * (PI * PI)) id)).
  - intros z. unfold SIS.mass_2d, SIS.pi, mult_real_fct, id. reflexivity.
  - apply derivable_pt_lim_scal, derivable_pt_lim_id.
Qed.

End SISMore.

(* ========================================================================= *)
(** * Further properties of the code *)

Module Extras.
Import GaussianFacts GaussianMore SISMore.

(** [Gaussian.mass_2d_lens(R, amp, sigma)], the projected mass inside radius
    [R] for the 2d amplitude [amp], is [amp * (1 - exp(-R^2 / (2 sigma^2)))]
    for [sigma > 0]. *)
Theorem gaussian_mass_2d_lens_formula (R0 amp s : R) :
  0 < s ->
  Gaussian.mass_2d_lens (Fin R0) (Fin amp) (Fin s)
  = Fin (amp * (1 - exp (- (R0 * R0) / (2 * s * s)))).
Proof. exact (mass_2d_lens_closed R0 amp s). Qed.

Lemma gaussian_mass_2d_lens_formula_witness :
  0 < 2 /\
  Gaussian.mass_2d_lens (Fin 3) (Fin 5) (Fin 2)
  = Fin (5 * (1 - exp (- (3 * 3) / (2 * 2 * 2)))).
Proof. split; [lra | apply (gaussian_mass_2d_lens_formula 3 5 2); lra]. Defined.

(** For [amp >= 0] and [sigma > 0] the enclosed mass [mass_2d_lens] is
    nonnegative, non-decreasing in [R >= 0] and never above [amp]. *)
Theorem gaussian_mass_2d_lens_monotone_bounded (amp s R1 R2 : R) :
  0 <= amp -> 0 < s -> 0 <= R1 <= R2 ->
  exists m1 m2,
    Gaussian.mass_2d_lens (Fin R1) (Fin amp) (Fin s) = Fin m1
    /\ Gaussian.mass_2d_lens (Fin R2) (Fin amp) (Fin s) = Fin m2
    /\ 0 <= m1 <= m2 /\ m2 <= amp.
Proof. exact (mass_2d_lens_mono amp s R1 R2). Qed.

Lemma gaussian_mass_2d_lens_monotone_bounded_witness :
  (0 <= 1 /\ 0 < 1 /\ 0 <= 1 <= 2) /\
  exists m1 m2,
    Gaussian.mass_2d_lens (Fin 1) (Fin 1) (Fin 1) = Fin m1
    /\ Gaussian.mass_2d_lens (Fin 2) (Fin 1) (Fin 1) = Fin m2
    /\ 0 <= m1 <= m2 /\ m2 <= 1.
Proof.
  split; [lra | apply (gaussian_mass_2d_lens_monotone_bounded 1 1 1 2); lra].
Defined.

(** [Gaussian.alpha_abs] at radius [R = 0] is [NaN] ([0 / 0]); this is why
    [derivatives] and [hessian] raise the radius to [1e-5] first. *)
Theorem gaussian_alpha_abs_at_zero_nan (amp s : R) :
  0 < s -> Gaussian.alpha_abs (Fin 0) (Fin amp) (Fin s) = NaN.
Proof. exact (alpha_abs_zero amp s). Qed.

Lemma gaussian_alpha_abs_at_zero_nan_witness :
  0 < 1 /\ Gaussian.alpha_abs (Fin 0) (Fin 2) (Fin 1) = NaN.
Proof. split; [lra | apply (gaussian_alpha_abs_at_zero_nan 2 1); lra]. Defined.

(** For [sigma > 0] and [R > 0], [Gaussian.d_alpha_dr(R, amp, sigma, sigma)]
    is finite and is the derivative of [R -> alpha_abs(R, amp, sigma)] at [R]. *)
Theorem gaussian_d_alpha_dr_derivative (R0 amp s : R) :
  0 < s -> 0 < R0 ->
  is_finite (Gaussian.d_alpha_dr (Fin R0) (Fin amp) (Fin s) (Fin s)) = true
  /\ derivable_pt_lim (fun t => xval (Gaussian.alpha_abs (Fin t) (Fin amp) (Fin s))) R0
       (xval (Gaussian.d_alpha_dr (Fin R0) (Fin amp) (Fin s) (Fin s))).
Proof.
  intros Hs HR. split.
  - rewrite d_alpha_dr_closed by lra. reflexivity.
  - exact (d_alpha_dr_is_derivative R0 amp s Hs HR).
Qed.

Lemma gaussian_d_alpha_dr_derivative_witness :
  (0 < 1 /\ 0 < 2) /\
  (is_finite (Gaussian.d_alpha_dr (Fin 2) (Fin 3) (Fin 1) (Fin 1)) = true
   /\ derivable_pt_lim (fun t => xval (Gaussian.alpha_abs (Fin t) (Fin 3) (Fin 1))) 2
        (xval (Gaussian.d_alpha_dr (Fin 2) (Fin 3) (Fin 1) (Fin 1)))).
Proof. split; [lra | apply (gaussian_d_alpha_dr_derivative 2 3 1); lra]. Defined.

(** Where the radius [r] is at least the floor [1e-5], the trace
    [f_xx + f_yy] of [Gaussian.hessian] is
    [amp / (pi sigma^2) * exp(-r^2 / (2 sigma^2))], twice the Gaussian
    convergence of 2d amplitude [amp]; the two mixed entries are equal and
    all four are finite. *)
Theorem gaussian_hessian_trace (x y amp s cx cy : R) :
  0 < s ->
  1 / 100000 <= sqrt ((x - cx) * (x - cx) + (y - cy) * (y - cy)) ->
  exists a b d,
    Gaussian.hessian (Fin x) (Fin y) (Fin amp) (Fin s) (Fin cx) (Fin cy)
    = (Fin a, Fin b, Fin b, Fin d)
    /\ a + d = amp / (PI * s * s)
               * exp (- ((x - cx) * (x - cx) + (y - cy) * (y - cy)) / (2 * s * s)).
Proof. exact (hessian_trace x y amp s cx cy). Qed.

Lemma gaussian_hessian_trace_witness :
  (0 < 1 /\ 1 / 100000 <= sqrt ((1 - 0) * (1 - 0) + (0 - 0) * (0 - 0))) /\
  exists a b d,
    Gaussian.hessian (Fin 1) (Fin 0) (Fin 2) (Fin 1) (Fin 0) (Fin 0)
    = (Fin a, Fin b, Fin b, Fin d)
    /\ a + d = 2 / (PI * 1 * 1)
               * exp (- ((1 - 0) * (1 - 0) + (0 - 0) * (0 - 0)) / (2 * 1 * 1)).
Proof.
  assert (H : 1 / 100000 <= sqrt ((1 - 0) * (1 - 0) + (0 - 0) * (0 - 0))).
  { replace ((1 - 0) * (1 - 0) + (0 - 0) * (0 - 0)) with 1 by ring.
    rewrite sqrt_1. lra. }
  split; [split; [lra | exact H] | apply (gaussian_hessian_trace 1 0 2 1 0 0); [lra | exact H]].
Defined.

(** [Gaussian.derivatives] is the radial deflection
    [amp (1 - exp(-R^2 / (2 sigma^2))) / (pi R^2)] times the offset from the
    center, where [R] is the radius raised to at least [1e-5]; for [sigma > 0]
    both components are finite at every point. *)
Theorem gaussian_derivatives_formula (x y amp s cx cy : R) :
  0 < s ->
  let R0 := Rmax (sqrt ((x - cx) * (x - cx) + (y - cy) * (y - cy))) (1 / 100000) in
  Gaussian.derivatives (Fin x) (Fin y) (Fin amp) (Fin s) (Fin cx) (Fin cy)
  = (Fin (amp * (1 - exp (- (R0 * R0) / (2 * s * s))) / PI / R0 / R0 * (x - cx)),
     Fin (amp * (1 - exp (- (R0 * R0) / (2 * s * s))) / PI / R0 / R0 * (y - cy))).
Proof. exact (derivatives_closed x y amp s cx cy). Qed.

Lemma gaussian_derivatives_formula_witness :
  0 < 1 /\
  let R0 := Rmax (sqrt ((0 - 0) * (0 - 0) + (0 - 0) * (0 - 0))) (1 / 100000) in
  Gaussian.derivatives (Fin 0) (Fin 0) (Fin 1) (Fin 1) (Fin 0) (Fin 0)
  = (Fin (1 * (1 - exp (- (R0 * R0) / (2 * 1 * 1))) / PI / R0 / R0 * (0 - 0)),
     Fin (1 * (1 - exp (- (R0 * R0) / (2 * 1 * 1))) / PI / R0 / R0 * (0 - 0))).
Proof. split; [lra | apply (gaussian_derivatives_formula 0 0 1 1 0 0); lra]. Defined.

(** For [sigma > 0], [Gaussian.hessian] is finite at every finite point,
    the center included, with equal mixed entries. *)
Theorem gaussian_hessian_finite (x y amp s cx cy : R) :
  0 < s ->
  exists a b d, Gaussian.hessian (Fin x) (Fin y) (Fin amp) (Fin s) (Fin cx) (Fin cy)
    = (Fin a, Fin b, Fin b, Fin d).
Proof. exact (hessian_fin x y amp s cx cy). Qed.

Lemma gaussian_hessian_finite_witness :
  0 < 1 /\
  exists a b d, Gaussian.hessian (Fin 0) (Fin 0) (Fin 1) (Fin 1) (Fin 0) (Fin 0)
    = (Fin a, Fin b, Fin b, Fin d).
Proof. split; [lra | apply (gaussian_hessian_finite 0 0 1 1 0 0); lra]. Defined.

(** [Gaussian.function] (the potential) is [NaN] at the lens center: the
    radius is [0] there and [_num_integral] returns [NaN] for it. *)
Theorem gaussian_function_center_nan (x y amp s : R) :
  0 < s ->
  Gaussian.function (Fin x) (Fin y) (Fin amp) (Fin s) (Fin x) (Fin y)
  = Ok (mk_array [] DFloat64 false [NaN]).
Proof. exact (function_center x y amp s). Qed.

Lemma gaussian_function_center_nan_witness :
  0 < 1 /\
  Gaussian.function (Fin 2) (Fin 3) (Fin 1) (Fin 1) (Fin 2) (Fin 3)
  = Ok (mk_array [] DFloat64 false [NaN]).
Proof. split; [lra | apply (gaussian_function_center_nan 2 3 1 1); lra]. Defined.

(** Away from the center, [Gaussian.function] is [amp / pi] times
    [_num_integral(r, 1 / (2 sigma^2))], a 0-d [float64] value equal to the
    200-step trapezoidal sum over [0, r]. *)
Theorem gaussian_function_off_center (x y amp s cx cy : R) :
  0 < s ->
  sqrt ((x - cx) * (x - cx) + (y - cy) * (y - cy)) <> 0 ->
  let r := sqrt ((x - cx) * (x - cx) + (y - cy) * (y - cy)) in
  Gaussian._num_integral (Gaussian.traced (Fin r))
    (Gaussian.traced (Fin (1 / (2 * s * s))))
  = Ok (mk_array [] DFloat64 false [Fin (TrapezoidSpec.trapezoid r (1 / (2 * s * s)))])
  /\ Gaussian.function (Fin x) (Fin y) (Fin amp) (Fin s) (Fin cx) (Fin cy)
     = Ok (mk_array [] DFloat64 false
             [Fin (TrapezoidSpec.trapezoid r (1 / (2 * s * s)) * (amp / PI))]).
Proof. intros Hs Hr. exact (function_off_center x y amp s cx cy Hs Hr). Qed.

Lemma gaussian_function_off_center_witness :
  (0 < 1 /\ sqrt ((3 - 0) * (3 - 0) + (4 - 0) * (4 - 0)) <> 0) /\
  let r := sqrt ((3 - 0) * (3 - 0) + (4 - 0) * (4 - 0)) in
  Gaussian._num_integral (Gaussian.traced (Fin r))
    (Gaussian.traced (Fin (1 / (2 * 1 * 1))))
  = Ok (mk_array [] DFloat64 false [Fin (TrapezoidSpec.trapezoid r (1 / (2 * 1 * 1)))])
  /\ Gaussian.function (Fin 3) (Fin 4) (Fin 2) (Fin 1) (Fin 0) (Fin 0)
     = Ok (mk_array [] DFloat64 false
             [Fin (TrapezoidSpec.trapezoid r (1 / (2 * 1 * 1)) * (2 / PI))]).
Proof.
  assert (H : sqrt ((3 - 0) * (3 - 0) + (4 - 0) * (4 - 0)) <> 0)
    by (apply Rgt_not_eq, sqrt_lt_R0; lra).
  split; [split; [lra | exact H] | apply (gaussian_function_off_center 3 4 2 1 0 0); [lra | exact H]].
Defined.

(** The amplitude conversions also round-trip the other way:
    [_amp2d_to_3d(_amp3d_to_2d(a, sx, sy), sx, sy) = a] for [sx, sy > 0]. *)
Theorem gaussian_amp_roundtrip_3d (a s1 s2 : R) :
  0 < s1 -> 0 < s2 ->
  Gaussian._amp2d_to_3d (Gaussian._amp3d_to_2d (Fin a) (Fin s1) (Fin s2)) (Fin s1) (Fin s2)
  = Fin a.
Proof. exact (amp_roundtrip_rev a s1 s2). Qed.

Lemma gaussian_amp_roundtrip_3d_witness :
  (0 < 1 /\ 0 < 2) /\
  Gaussian._amp2d_to_3d (Gaussian._amp3d_to_2d (Fin 3) (Fin 1) (Fin 2)) (Fin 1) (Fin 2)
  = Fin 3.
Proof. split; [lra | apply (gaussian_amp_roundtrip_3d 3 1 2); lra]. Defined.

(** [SIS.mass_3d_lens(r, theta_E)] is [2 theta_E r] and
    [SIS.mass_2d_lens(r, theta_E)] is [pi theta_E r]; in particular the
    projected mass inside the Einstein radius is [pi theta_E^2]. *)
Theorem sis_lens_masses (r t : R) :
  SIS.mass_3d_lens (Fin r) (Fin t) = Fin (2 * t * r)
  /\ SIS.mass_2d_lens (Fin r) (Fin t) = Fin (PI * t * r).
Proof. split; [apply sis_mass_3d_lens_closed | apply sis_mass_2d_lens_closed]. Qed.

(** [SIS.grav_pot] is the constant [4 pi rho0] away from the center and
    [NaN] ([0 / 0]) at the center. *)
Theorem sis_grav_pot_values (x y rho0 cx cy : R) :
  (sqrt ((x - cx) * (x - cx) + (y - cy) * (y - cy)) <> 0 ->
   SIS.grav_pot (Fin x) (Fin y) (Fin rho0) (Fin cx) (Fin cy) = Fin (4 * PI * rho0))
  /\ (sqrt ((x - cx) * (x - cx) + (y - cy) * (y - cy)) = 0 ->
      SIS.grav_pot (Fin x) (Fin y) (Fin rho0) (Fin cx) (Fin cy) = NaN).
Proof. exact (grav_pot_cases x y rho0 cx cy). Qed.


(** With [rho0 = theta2rho(theta_E)], [SIS.density_2d] at radius [r > 0] is
    the convergence [theta_E / (2 r)] of the class docstring. *)
Theorem sis_convergence (x y t cx cy : R) :
  sqrt ((x - cx) * (x - cx) + (y - cy) * (y - cy)) <> 0 ->
  SIS.density_2d (Fin x) (Fin y) (SIS.theta2rho (Fin t)) (Fin cx) (Fin cy)
  = Fin (t / (2 * sqrt ((x - cx) * (x - cx) + (y - cy) * (y - cy)))).
Proof. exact (density_2d_lens x y t cx cy). Qed.

Lemma sis_convergence_witness :
  sqrt ((3 - 0) * (3 - 0) + (4 - 0) * (4 - 0)) <> 0 /\
  SIS.density_2d (Fin 3) (Fin 4) (SIS.theta2rho (Fin 1)) (Fin 0) (Fin 0)
  = Fin (1 / (2 * sqrt ((3 - 0) * (3 - 0) + (4 - 0) * (4 - 0)))).
Proof.
  assert (H : sqrt ((3 - 0) * (3 - 0) + (4 - 0) * (4 - 0)) <> 0)
    by (apply Rgt_not_eq, sqrt_lt_R0; lra).
  split; [exact H | apply (sis_convergence 3 4 1 0 0); exact H].
Defined.

(** [SIS.mass_3d] grows at the rate [4 pi r^2 SIS.density(r, rho0)]: the
    enclosed mass is the integral of the density over spherical shells. *)
Theorem sis_mass_3d_rate (r rho0 : R) :
  r <> 0 ->
  derivable_pt_lim (fun t => xval (SIS.mass_3d (Fin t) (Fin rho0))) r
    (4 * PI * (r * r) * xval (SIS.density (Fin r) (Fin rho0))).
Proof. exact (mass_3d_derivative r rho0). Qed.

Lemma sis_mass_3d_rate_witness :
  1 <> 0 /\
  derivable_pt_lim (fun t => xval (SIS.mass_3d (Fin t) (Fin 2))) 1
    (4 * PI * (1 * 1) * xval (SIS.density (Fin 1) (Fin 2))).
Proof. split; [lra | apply (sis_mass_3d_rate 1 2); lra]. Defined.

(** [SIS.mass_2d] grows at the rate [2 pi r] times [SIS.density_2d] at any
    point at distance [r > 0] from the center: the projected mass is the
    integral of the projected density over rings. *)
Theorem sis_mass_2d_rate (x y rho0 cx cy : R) :
  sqrt ((x - cx) * (x - cx) + (y - cy) * (y - cy)) <> 0 ->
  derivable_pt_lim (fun t => xval (SIS.mass_2d (Fin t) (Fin rho0)))
    (sqrt ((x - cx) * (x - cx) + (y - cy) * (y - cy)))
    (2 * PI * sqrt ((x - cx) * (x - cx) + (y - cy) * (y - cy))
     * xval (SIS.density_2d (Fin x) (Fin y) (Fin rho0) (Fin cx) (Fin cy))).
Proof. exact (mass_2d_derivative x y rho0 cx cy). Qed.

Lemma sis_mass_2d_rate_witness :
  sqrt ((3 - 0) * (3 - 0) + (4 - 0) * (4 - 0)) <> 0 /\
  derivable_pt_lim (fun t => xval (SIS.mass_2d (Fin t) (Fin 1)))
    (sqrt ((3 - 0) * (3 - 0) + (4 - 0) * (4 - 0)))
    (2 * PI * sqrt ((3 - 0) * (3 - 0) + (4 - 0) * (4 - 0))
     * xval (SIS.density_2d (Fin 3) (Fin 4) (Fin 1) (Fin 0) (Fin 0))).
Proof.
  assert (H : sqrt ((3 - 0) * (3 - 0) + (4 - 0) * (4 - 0)) <> 0)
    by (apply Rgt_not_eq, sqrt_lt_R0; lra).
  split; [exact H | apply (sis_mass_2d_rate 3 4 1 0 0); exact H].
Defined.

End Extras.
